(** * Attendance tracking: check-in / check-out methods, publications and
    the check-out button of the people list.

    Shallow embedding of
    - [src/communities/communities.js]  (Meteor methods [people.checkIn] and
      [people.checkOut] over the [People] collection),
    - [src/server/publications.js]      (publication [people], in the two
      variants the file holds),
    - [src/ui/components/EventSelector.jsx] ([handleSelectChange] of
      [EventSelector]; [formatDate], [getTimeDifferenceInSeconds],
      [handleCheckIn], [handleCheckOut] and [renderActionButton] of
      [PeopleList]; the figures of [EventSummary]),
    - [src/ui/pages/HomePage.jsx]       (the selection state and the props
      given to [EventSelector]).

    Conventions.
    - A JavaScript string is its sequence of UTF-16 code units ([list N]).
    - A [Date] is its time value, milliseconds since the epoch, in [Z];
      [new Date()] is the clock reading handed to the operation.
    - The [People] collection is a finite map from [_id] to documents.
    - A method either returns a value or throws; [outcome] records which. *)

From Stdlib Require Import ZArith String Ascii.
From stdpp Require Import gmap list fin_maps strings pretty.

Local Open Scope Z_scope.

(* ===================================================================== *)
(** ** JavaScript values                                                  *)
(* ===================================================================== *)

Module Js.

(** Strings as sequences of UTF-16 code units. *)
Definition jsstring := list N.

(** An ASCII literal as a JavaScript string. *)
Definition str (s : string) : jsstring :=
  List.map N_of_ascii (list_ascii_of_string s).

(** The values a method or publication argument can take: what a client
    can send, so no functions.  Numbers are kept as integers plus [NaN]:
    the code only looks at their type and at their truthiness.  An object
    is the list of its own properties. *)
#[local] Set Warnings "-register-all".
Inductive value :=
| VUndefined
| VNull
| VBool (b : bool)
| VNumber (n : Z)
| VNaN
| VString (s : jsstring)
| VDate (t : Z)
| VArray (items : list value)
| VObject (props : list (string * value)).
#[local] Set Warnings "register-all".

(** ToBoolean: [undefined], [null], [false], [0], [NaN] and [""] are
    falsy, everything else is truthy. *)
Definition truthy (v : value) : bool :=
  match v with
  | VUndefined | VNull | VNaN => false
  | VBool b => b
  | VNumber n => negb (n =? 0)
  | VString s => match s with [] => false | _ => true end
  | VDate _ | VArray _ | VObject _ => true
  end.

(** [v === 0] *)
Definition strictly_zero (v : value) : bool :=
  match v with
  | VNumber n => n =? 0
  | _ => false
  end.

(** Whether converting [v] to a string, as a template literal
    [`${v}`] does, throws a [TypeError].  An object is converted by its
    [toString] and then its [valueOf]: an own property [toString], which
    is no function, hides [Object.prototype.toString], and [valueOf]
    gives no primitive, so the conversion throws; without one,
    [Object.prototype.toString] answers.  An array joins the conversions
    of its items.  The other values always convert. *)
Fixpoint toString_throws (v : value) : bool :=
  match v with
  | VObject props => existsb (λ kv, String.eqb kv.1 "toString") props
  | VArray items => existsb toString_throws items
  | _ => false
  end.

(** WhiteSpace and LineTerminator code points of ECMAScript, the
    characters [String.prototype.trim] strips. *)
Definition is_whitespace (c : N) : bool :=
  ((c =? 0x09) || (c =? 0x0A) || (c =? 0x0B) || (c =? 0x0C) || (c =? 0x0D)
   || (c =? 0x20) || (c =? 0xA0) || (c =? 0x1680)
   || ((0x2000 <=? c) && (c <=? 0x200A))
   || (c =? 0x2028) || (c =? 0x2029) || (c =? 0x202F) || (c =? 0x205F)
   || (c =? 0x3000) || (c =? 0xFEFF))%N.

Fixpoint trimStart (s : jsstring) : jsstring :=
  match s with
  | c :: s' => if is_whitespace c then trimStart s' else s
  | [] => []
  end.

Definition trimEnd (s : jsstring) : jsstring :=
  rev (trimStart (rev s)).

(** [s.trim()] *)
Definition trim (s : jsstring) : jsstring := trimEnd (trimStart s).

(** A blank string: empty, or white space only. *)
Definition blank (s : jsstring) : bool := forallb is_whitespace s.

(** Thrown values: a [Meteor.Error] with its [error] code and [reason],
    or any other JavaScript error with its [message]. *)
Inductive exn :=
| MeteorError (error : string) (reason : string)
| JsError (message : string).

(** Object literals, as the list of their properties. *)
Definition object := list (string * value).

(** [o.k]: the value of property [k], [undefined] when [o] has none. *)
Fixpoint get (o : object) (k : string) : value :=
  match o with
  | [] => VUndefined
  | (k', v) :: o' => if String.eqb k' k then v else get o' k
  end.

(** How a call ends. *)
Inductive outcome (A : Type) :=
| Return (a : A)
| Throw (e : exn).
Arguments Return {A} a.
Arguments Throw {A} e.

End Js.
Export Js.

(* ===================================================================== *)
(** ** The People collection                                              *)
(* ===================================================================== *)

(** A Person document.  [None] stands for [null] in the two date fields
  and for an absent optional field. *)
Record person := mkPerson {
  _id : jsstring;
  communityId : jsstring;
  firstName : jsstring;
  lastName : jsstring;
  companyName : option jsstring;
  title : option jsstring;
  checkInDate : option Z;
  checkOutDate : option Z
}.

#[global] Instance person_eq_dec : EqDecision person.
Proof. solve_decision. Defined.

Module Collection.

(** The documents of a collection, by [_id]. *)
Abbreviation store := (gmap jsstring person).

(** The [$set] modifiers the code uses: each field is either left alone
    ([None]) or assigned. *)
Record modifier := mkSet {
  set_checkInDate : option (option Z);
  set_checkOutDate : option (option Z)
}.

Definition apply_set (m : modifier) (p : person) : person :=
  {| _id := _id p;
     communityId := communityId p;
     firstName := firstName p;
     lastName := lastName p;
     companyName := companyName p;
     title := title p;
     checkInDate := default (checkInDate p) (set_checkInDate m);
     checkOutDate := default (checkOutDate p) (set_checkOutDate m) |}.

(** [result.modifiedCount], for the number [result] that [updateAsync]
    resolves to: a number has no own property, and neither
    [Number.prototype] nor [Object.prototype] has one of that name, so
    this is [undefined] whatever the number. *)
Definition modifiedCount (result : Z) : value := VUndefined.

(** [findOneAsync({ _id: id })] *)
Definition findOneAsync (id : jsstring) (st : store) : option person :=
  st !! id.

(** [updateAsync({ _id: id }, { $set: m })]: the document with that
    [_id], when there is one, gets the fields of [m].  The call resolves
    to a number, the number of documents affected: 1 when a document has
    that [_id], 0 when none has.  (The calls on the collection are taken
    to resolve; a rejected call is outside the model.) *)
Definition updateAsync (id : jsstring) (m : modifier) (st : store)
  : Z * store :=
  match st !! id with
  | None => (0, st)
  | Some p => (1, <[id := apply_set m p]> st)
  end.

(** [find({ communityId: cid })]: the documents a cursor over that
    selector delivers, those whose [communityId] field equals [cid]. *)
Definition find (cid : jsstring) (st : store) : store :=
  filter (λ kp, communityId kp.2 = cid) st.

End Collection.
Export Collection.

(* ===================================================================== *)
(** ** Methods [people.checkIn] and [people.checkOut]                     *)
(* ===================================================================== *)

Module Methods.

(** The [catch] clause both methods end with: a [Meteor.Error] is thrown
    again as it is, any other error becomes a ['database-error']. *)
Definition rethrow {A} (prefix : string) (r : outcome A) : outcome A :=
  match r with
  | Throw (JsError message) =>
      Throw (MeteorError "database-error" (prefix +:+ message))
  | _ => r
  end.

(** ['people.checkIn'(personId)], run at clock reading [now]. *)
Definition checkIn (personId : value) (now : Z) (st : store)
  : outcome object * store :=
  match personId with
  | VString s =>
      if negb (truthy (VString (trim s))) then
        (Throw (MeteorError "invalid-argument"
                  "O ID da pessoa não pode estar vazio."), st)
      else
        let '(result, st') :=
          updateAsync s {| set_checkInDate := Some (Some now);
                           set_checkOutDate := Some None |} st in
        (rethrow "Erro ao realizar check-in: "
           (if strictly_zero (modifiedCount result) then
              Throw (MeteorError "person-not-found"
                       "Pessoa não encontrada ou já com check-in realizado.")
            else
              Return [("success", VBool true);
                      ("message", VString (str "Check-in realizado com sucesso!"))]),
         st')
  | _ =>
      (Throw (MeteorError "invalid-argument"
                "O ID da pessoa deve ser uma string válida."), st)
  end.

(** ['people.checkOut'(personId)] up to its first [await]: the argument
    is validated and the document is read. *)
Definition checkOut_find (personId : value) (st : store)
  : outcome (jsstring * option person) :=
  match personId with
  | VString s =>
      if negb (truthy (VString (trim s))) then
        Throw (MeteorError "invalid-argument"
                 "O ID da pessoa não pode estar vazio.")
      else Return (s, findOneAsync s st)
  | _ =>
      Throw (MeteorError "invalid-argument"
               "O ID da pessoa deve ser uma string válida.")
  end.

(** ['people.checkOut'] from the point where [findOneAsync] has answered
    [found]: the checks on the document that was read, then the write,
    at clock reading [now], against the store as it is by then. *)
Definition checkOut_update (personId : jsstring) (found : option person)
    (now : Z) (st : store) : outcome object * store :=
  match found with
  | None =>
      (rethrow "Erro ao realizar check-out: "
         (Throw (MeteorError "person-not-found" "Pessoa não encontrada.")), st)
  | Some p =>
      if negb (bool_decide (is_Some (checkInDate p))) then
        (rethrow "Erro ao realizar check-out: "
           (Throw (MeteorError "invalid-operation"
                     "Não é possível fazer check-out sem ter feito check-in primeiro.")),
         st)
      else if bool_decide (is_Some (checkOutDate p)) then
        (rethrow "Erro ao realizar check-out: "
           (Throw (MeteorError "already-checked-out"
                     "Esta pessoa já fez check-out.")), st)
      else
        let '(result, st') :=
          updateAsync personId {| set_checkInDate := None;
                                  set_checkOutDate := Some (Some now) |} st in
        (rethrow "Erro ao realizar check-out: "
           (if strictly_zero (modifiedCount result) then
              Throw (MeteorError "update-failed"
                       "Falha ao atualizar os dados da pessoa.")
            else
              Return [("success", VBool true);
                      ("message", VString (str "Check-out realizado com sucesso!"))]),
         st')
  end.

(** ['people.checkOut'(personId)] run without interruption. *)
Definition checkOut (personId : value) (now : Z) (st : store)
  : outcome object * store :=
  match checkOut_find personId st with
  | Throw e => (Throw e, st)
  | Return (s, found) => checkOut_update s found now st
  end.

End Methods.
Export Methods.

(* ===================================================================== *)
(** ** Failure kinds of the interface                                     *)
(* ===================================================================== *)

(** The kinds of failure the interface names. *)
Inductive failure :=
| InvalidArgument
| NotFound
| InvalidState (why : string)
| ConcurrencyConflict
| Internal.

(** The kind a thrown value stands for, read off the [error] code the
    methods give their [Meteor.Error]s. *)
Definition failure_of (e : exn) : option failure :=
  match e with
  | MeteorError code _ =>
      if String.eqb code "invalid-argument" then Some InvalidArgument
      else if String.eqb code "person-not-found" then Some NotFound
      else if String.eqb code "invalid-operation" then
        Some (InvalidState "not-checked-in")
      else if String.eqb code "already-checked-out" then
        Some (InvalidState "already-checked-out")
      else if String.eqb code "update-failed" then Some ConcurrencyConflict
      else if String.eqb code "database-error" then Some Internal
      else None
  | JsError _ => None
  end.

(** The call threw, and what it threw is a failure of kind [k]. *)
Definition fails_with {A} (r : outcome A) (k : failure) : Prop :=
  ∃ e, r = Throw e ∧ failure_of e = Some k.

(** The call returned. *)
Definition succeeds {A} (r : outcome A) : Prop := ∃ a, r = Return a.

(** A valid person or community identifier: a string that is not blank,
    which is what the validation of the methods and of the publication
    lets through. *)
Definition valid_id (s : jsstring) : Prop := blank s = false.

(** A person is present: checked in and not checked out. *)
Definition present (p : person) : Prop :=
  is_Some (checkInDate p) ∧ checkOutDate p = None.

(** The ordering of the two dates of a document: a check-out date comes
    with a check-in date that is not later. *)
Definition ordered (p : person) : Prop :=
  ∀ out, checkOutDate p = Some out →
         ∃ cin, checkInDate p = Some cin ∧ cin ≤ out.

(** A result object of the shape [{ success: true, timestamp }], with
    the clock reading of the transition as its [timestamp]. *)
Definition carries_timestamp (r : object) (now : Z) : Prop :=
  get r "success" = VBool true ∧ get r "timestamp" = VDate now.

(** Every document of the store has its dates in order. *)
Definition store_ordered (st : store) : Prop :=
  ∀ s p, st !! s = Some p → ordered p.

(** No check-in date of the store is later than [t]. *)
Definition checked_in_by (t : Z) (st : store) : Prop :=
  ∀ s p d, st !! s = Some p → checkInDate p = Some d → d ≤ t.

(** The modifier of [people.checkIn]: [{ $set: { checkInDate: new Date(),
    checkOutDate: null } }]. *)
Definition checkIn_set (now : Z) : modifier :=
  {| set_checkInDate := Some (Some now); set_checkOutDate := Some None |}.

(** The modifier of [people.checkOut]: [{ $set: { checkOutDate: new
    Date() } }]. *)
Definition checkOut_set (now : Z) : modifier :=
  {| set_checkInDate := None; set_checkOutDate := Some (Some now) |}.

(* ===================================================================== *)
(** ** Sequences of operations                                            *)
(* ===================================================================== *)

Module Session.

Inductive op :=
| CheckIn (personId : value)
| CheckOut (personId : value).

Definition exec (o : op) (now : Z) (st : store) : outcome object * store :=
  match o with
  | CheckIn personId => checkIn personId now st
  | CheckOut personId => checkOut personId now st
  end.

(** The operations of [ops] one after the other, each with the clock
    reading it is run at. *)
Fixpoint run_ops (ops : list (Z * op)) (st : store) : store :=
  match ops with
  | [] => st
  | (now, o) :: ops' => run_ops ops' (exec o now st).2
  end.

(** Clock readings that never go back, starting from [t]. *)
Fixpoint nondecreasing (t : Z) (ts : list Z) : Prop :=
  match ts with
  | [] => True
  | t' :: ts' => t ≤ t' ∧ nondecreasing t' ts'
  end.

End Session.
Export Session.

(* ===================================================================== *)
(** ** Concurrent calls of [people.checkOut]                              *)
(* ===================================================================== *)

(** The method is an [async] function: calls run one at a time and give
    way to each other where they [await].  [people.checkOut] awaits the
    answer of [findOneAsync] and, later, that of [updateAsync]; nothing
    touches the store after the second, so a call has two steps. *)
Module Interleaving.

Inductive call :=
| Called (personId : value)
| Found (personId : jsstring) (found : option person)
| Settled (result : outcome object).

(** One step of a call, at clock reading [now]. *)
Definition step (now : Z) (c : call) (st : store) : call * store :=
  match c with
  | Called personId =>
      match checkOut_find personId st with
      | Throw e => (Settled (Throw e), st)
      | Return (s, found) => (Found s found, st)
      end
  | Found s found =>
      let '(r, st') := checkOut_update s found now st in (Settled r, st')
  | Settled _ => (c, st)
  end.

(** A schedule names, step by step, the call that runs next and the
    clock reading of the step. *)
Fixpoint run (sched : list (nat * Z)) (calls : list call) (st : store)
  : list call * store :=
  match sched with
  | [] => (calls, st)
  | (i, now) :: sched' =>
      match calls !! i with
      | None => run sched' calls st
      | Some c =>
          let '(c', st') := step now c st in
          run sched' (<[i := c']> calls) st'
      end
  end.

(** The schedule in which the calls [k], ..., [k + n - 1] take one step
    each, in turn, call [i] at clock reading [clock i]. *)
Definition round (clock : nat → Z) (k n : nat) : list (nat * Z) :=
  List.map (λ i, (i, clock i)) (seq k n).

(** The calls of a run that returned. *)
Definition returned_ok (c : call) : bool :=
  match c with
  | Settled (Return _) => true
  | _ => false
  end.

Definition successes (calls : list call) : nat :=
  length (List.filter returned_ok calls).

End Interleaving.

(* ===================================================================== *)
(** ** Publication [people]                                               *)
(* ===================================================================== *)

Module Publications.

(** [People.find({ communityId: cid })], not yet observed. *)
Inductive cursor := PeopleFind (cid : jsstring).

(** What a publish handler hands back. *)
Inductive returned :=
| RUndefined
| RArray (cursors : list cursor)
| RCursor (c : cursor).

(** What a handler does besides returning. *)
Inductive effect :=
| ConsoleLog
| Ready.

#[global] Instance effect_eq_dec : EqDecision effect.
Proof. solve_decision. Defined.

(** [Meteor.publish('people', function(communityId) {...})], the variant
    that logs and calls [this.ready()].  Its first statement logs a
    template literal with [${communityId}] in it, before any check of the
    argument: when the conversion of the argument to a string throws, the
    handler throws there. *)
Definition people_function (communityId : value)
  : outcome returned * list effect :=
  if toString_throws communityId then
    (Throw (JsError "Cannot convert object to primitive value"), [])
  else if negb (truthy communityId) then
    (Return RUndefined, [ConsoleLog; ConsoleLog; Ready])
  else
    match communityId with
    | VString s =>
        if negb (truthy (VString (trim s))) then
          (Return RUndefined, [ConsoleLog; ConsoleLog; Ready])
        else
          (Return (RCursor (PeopleFind s)), [ConsoleLog; ConsoleLog])
    | _ => (Return RUndefined, [ConsoleLog; ConsoleLog; Ready])
    end.

(** [Meteor.publish('people', (communityId) => {...})], the variant that
    returns [[]]. *)
Definition people_arrow (communityId : value)
  : outcome returned * list effect :=
  if negb (truthy communityId) then (Return (RArray []), [])
  else
    match communityId with
    | VString s =>
        if negb (truthy (VString (trim s))) then (Return (RArray []), [])
        else (Return (RCursor (PeopleFind s)), [])
    | _ => (Return (RArray []), [])
    end.

(** What a subscriber gets: whether the subscription is ready, the
    documents sent, how many cursors were run against the store, and the
    error when the handler threw. *)
Record subscription := mkSub {
  ready : bool;
  documents : gmap jsstring person;
  scans : nat;
  error : option exn
}.

Definition fetch (c : cursor) (st : store) : store :=
  match c with PeopleFind cid => find cid st end.

(** Meteor's side of a subscription: a returned cursor, or each cursor of
    a returned array, is run and its documents are sent, and the
    subscription is marked ready; with any other return value it is ready
    only if the handler called [this.ready()]. *)
Definition subscribe (handler : value → outcome returned * list effect)
    (arg : value) (st : store) : subscription :=
  let '(r, effects) := handler arg in
  match r with
  | Throw e =>
      {| ready := false; documents := ∅; scans := 0; error := Some e |}
  | Return RUndefined =>
      {| ready := bool_decide (Ready ∈ effects); documents := ∅;
         scans := 0; error := None |}
  | Return (RArray cs) =>
      {| ready := true;
         documents := foldr (λ c acc, fetch c st ∪ acc) ∅ cs;
         scans := length cs; error := None |}
  | Return (RCursor c) =>
      {| ready := true; documents := fetch c st; scans := 1;
         error := None |}
  end.

(** A [communityId] argument that is missing, not a string, or an empty
    or blank string. *)
Definition invalid_filter (communityId : value) : bool :=
  match communityId with
  | VString s => blank s
  | _ => true
  end.

End Publications.

(* ===================================================================== *)
(** ** The action button of [PeopleList]                                  *)
(* ===================================================================== *)

Module PeopleList.

(** [getTimeDifferenceInSeconds(date)], with [now] the reading of
    [new Date()].  The difference is taken in the integers, which is what
    the code computes for dates less than 2^53 ms apart; beyond that the
    code's difference is a rounded double. *)
Definition getTimeDifferenceInSeconds (date : option Z) (now : Z) : Z :=
  match date with
  | None => 0
  | Some d =>
      let diffInMs := now - d in
      diffInMs / 1000
  end.

(** The click handlers of the component; each calls one method. *)
Inductive handler :=
| handleCheckIn (personId : jsstring)
| handleCheckOut (personId : jsstring).

(** [Meteor.callAsync(name, personId)], as the handler issues it. *)
Definition callAsync (h : handler) : string * jsstring :=
  match h with
  | handleCheckIn personId => ("people.checkIn", personId)
  | handleCheckOut personId => ("people.checkOut", personId)
  end.

(** Children of an element: text, or a number put into the text. *)
Inductive child :=
| Text (s : jsstring)
| Num (n : Z).

(** The elements [renderActionButton] builds ([className] left out). *)
Inductive element :=
| button (disabled : bool) (onClick : option handler) (children : list child)
| span (children : list child).

Definition renderActionButton (person : person) (now : Z) : element :=
  let fullName := firstName person ++ str " " ++ lastName person in
  if negb (bool_decide (is_Some (checkInDate person))) then
    button false (Some (handleCheckIn (_id person)))
      [Text (str "Check-in "); Text fullName]
  else if bool_decide (is_Some (checkInDate person))
          && negb (bool_decide (is_Some (checkOutDate person))) then
    let secondsSinceCheckIn :=
      getTimeDifferenceInSeconds (checkInDate person) now in
    if secondsSinceCheckIn <? 5 then
      let remainingSeconds := 5 - secondsSinceCheckIn in
      button true None
        [Text (str "Aguarde... ("); Num remainingSeconds; Text (str "s)")]
    else
      button false (Some (handleCheckOut (_id person)))
        [Text (str "Check-out "); Text fullName]
  else span [Text (str "Check-out realizado")].

End PeopleList.

(* ===================================================================== *)
(** ** Vocabulary for the methods and the calls in flight                 *)
(* ===================================================================== *)

(** Two documents that agree on everything but their dates. *)
Definition same_identity (p p' : person) : Prop :=
  _id p = _id p' ∧ communityId p = communityId p' ∧
  firstName p = firstName p' ∧ lastName p = lastName p' ∧
  companyName p = companyName p' ∧ title p = title p'.

(** A person is departed: checked in and checked out. *)
Definition departed (p : person) : Prop :=
  is_Some (checkInDate p) ∧ is_Some (checkOutDate p).

(** The schedule in which the calls [k], ..., [k + n - 1] run one after
    the other, each taking its two steps before the next starts, call [i]
    at clock reading [clock i]. *)
Definition in_turn (clock : nat → Z) (k n : nat) : list (nat * Z) :=
  flat_map (λ i, [(i, clock i); (i, clock i)]) (seq k n).

(** None of the calls has taken a step yet. *)
Definition not_started (calls : list Interleaving.call) : Prop :=
  ∀ i c, calls !! i = Some c → ∃ v, c = Interleaving.Called v.

(** What the calls in flight have read of a check-in date is still what
    the store holds. *)
Definition reads_agree (calls : list Interleaving.call) (st : store) : Prop :=
  ∀ i s q, calls !! i = Some (Interleaving.Found s (Some q)) →
    is_Some (checkInDate q) →
    ∃ p, st !! s = Some p ∧ checkInDate p = checkInDate q.

(** Each call that has not settled is the call [calls0] started it as. *)
Definition follows (calls0 calls : list Interleaving.call) : Prop :=
  ∀ i c, calls !! i = Some c →
    match c with
    | Interleaving.Called v => calls0 !! i = Some (Interleaving.Called v)
    | Interleaving.Found s _ =>
        calls0 !! i = Some (Interleaving.Called (VString s))
    | Interleaving.Settled _ => True
    end.

(** Each call that has returned was made for a person who is departed in
    the store. *)
Definition returned_departed (calls0 calls : list Interleaving.call)
    (st : store) : Prop :=
  ∀ i r, calls !! i = Some (Interleaving.Settled (Return r)) →
    ∃ s p, calls0 !! i = Some (Interleaving.Called (VString s)) ∧
           st !! s = Some p ∧ departed p.

(** What one step of a call can do to the call and to the store: leave
    a settled call alone, read, fail without writing, write the
    check-out date into the document the store holds, or, when the
    document that was read is gone, return without writing. *)
Inductive step_effect (now : Z) (c : Interleaving.call) (st : store)
  : Interleaving.call * store → Prop :=
| effect_settled r :
    c = Interleaving.Settled r → step_effect now c st (c, st)
| effect_read s :
    c = Interleaving.Called (VString s) →
    step_effect now c st (Interleaving.Found s (st !! s), st)
| effect_fail s found e :
    c = Interleaving.Found s found →
    step_effect now c st (Interleaving.Settled (Throw e), st)
| effect_invalid v e :
    c = Interleaving.Called v →
    step_effect now c st (Interleaving.Settled (Throw e), st)
| effect_write s q p r :
    c = Interleaving.Found s (Some q) → present q → st !! s = Some p →
    step_effect now c st
      (Interleaving.Settled (Return r),
       <[s := apply_set (checkOut_set now) p]> st)
| effect_gone s q r :
    c = Interleaving.Found s (Some q) → present q → st !! s = None →
    step_effect now c st (Interleaving.Settled (Return r), st).

(* ===================================================================== *)
(** ** Clicks on the action button                                        *)
(* ===================================================================== *)

Module Clicks.

Import PeopleList.

(** The [onClick] of an element, when it has one. *)
Definition onClick_of (e : element) : option handler :=
  match e with
  | button _ h _ => h
  | span _ => None
  end.

(** [Meteor.callAsync(name, personId)]: the method of that name, run on
    the server at clock reading [now]; a name that no method has is
    answered with error 404. *)
Definition call (name : string) (personId : value) (now : Z) (st : store)
  : outcome object * store :=
  if String.eqb name "people.checkIn" then checkIn personId now st
  else if String.eqb name "people.checkOut" then checkOut personId now st
  else (Throw (MeteorError "404" "Method not found"), st).

(** What the user sees of a click. *)
Inductive ui_effect :=
| Log (message : jsstring)
| LogError
| Alert (message : string).

(** [error.reason], as it is put into the alert. *)
Definition reason_of (e : exn) : string :=
  match e with
  | MeteorError _ reason => reason
  | JsError _ => "undefined"
  end.

(** [handleCheckIn(personId)] and [handleCheckOut(personId)]: the method
    is called; its success is logged, its failure is logged and shown in
    an alert.  The handler itself never throws. *)
Definition click (h : handler) (now : Z) (st : store)
  : list ui_effect * store :=
  let '(name, personId) := callAsync h in
  let '(r, st') := call name (VString personId) now st in
  match r with
  | Return _ =>
      ([Log (match h with
             | handleCheckIn _ => str "Check-in realizado para pessoa "
             | handleCheckOut _ => str "Check-out realizado para pessoa "
             end ++ personId)], st')
  | Throw e =>
      ([LogError;
        Alert (match h with
               | handleCheckIn _ => "Erro ao realizar check-in: "
               | handleCheckOut _ => "Erro ao realizar check-out: "
               end +:+ reason_of e)], st')
  end.

End Clicks.

(* ===================================================================== *)
(** ** The dates shown by [PeopleList]                                    *)
(* ===================================================================== *)

Module DateFormat.

(** What the getters of a [Date] answer, in local time: [getMonth()]
    (0 to 11), [getDate()], [getFullYear()], [getHours()] and
    [getMinutes()]. *)
Record local_date := mkLocal {
  getMonth : Z;
  getDate : Z;
  getFullYear : Z;
  getHours : Z;
  getMinutes : Z
}.

(** The fields are in the range the getters answer in. *)
Definition in_range (d : local_date) : Prop :=
  0 ≤ getMonth d ≤ 11 ∧ 1 ≤ getDate d ≤ 31 ∧
  0 ≤ getHours d ≤ 23 ∧ 0 ≤ getMinutes d ≤ 59.

(** [n.toString()] of an integer: its decimal digits, after a minus sign
    when it is negative. *)
Definition toString (n : Z) : jsstring := str (pretty n).

(** [s.padStart(2, '0')] *)
Definition padStart2 (s : jsstring) : jsstring :=
  replicate (2 - length s) 48%N ++ s.

(** The two decimal digits of a number below 100. *)
Definition two_digits (n : Z) : jsstring :=
  [Z.to_N (48 + n / 10); Z.to_N (48 + n mod 10)].

(** [formatDate(date)]; [None] stands for a date that is null. *)
Definition formatDate (date : option local_date) : jsstring :=
  match date with
  | None => str "N/A"
  | Some d =>
      let month := padStart2 (toString (getMonth d + 1)) in
      let day := padStart2 (toString (getDate d)) in
      let year := getFullYear d in
      let hours := padStart2 (toString (getHours d)) in
      let minutes := padStart2 (toString (getMinutes d)) in
      month ++ str "/" ++ day ++ str "/" ++ toString year ++ str ", "
        ++ hours ++ str ":" ++ minutes
  end.

End DateFormat.

(* ===================================================================== *)
(** ** The figures of [EventSummary]                                      *)
(* ===================================================================== *)

Module EventSummary.

(** The property names an object literal inherits from
    [Object.prototype]: for these [acc[company]] is not [undefined] on
    the empty object, and not a number either. *)
Definition inherited : list jsstring :=
  [str "constructor"; str "__defineGetter__"; str "__defineSetter__";
   str "hasOwnProperty"; str "__lookupGetter__"; str "__lookupSetter__";
   str "isPrototypeOf"; str "propertyIsEnumerable"; str "toString";
   str "valueOf"; str "__proto__"; str "toLocaleString"].

(** [person => !!person.checkInDate && !person.checkOutDate] *)
Definition is_present (person : person) : bool :=
  bool_decide (is_Some (checkInDate person))
  && negb (bool_decide (is_Some (checkOutDate person))).

Definition peopleCurrentlyPresent (people : list person) : list person :=
  List.filter is_present people.

Definition currentlyPresentCount (people : list person) : nat :=
  length (peopleCurrentlyPresent people).

(** [person.companyName || 'Sem empresa']: a missing and an empty company
    name both give the fallback. *)
Definition company (person : person) : jsstring :=
  match companyName person with
  | Some (c :: s) => c :: s
  | _ => str "Sem empresa"
  end.

(** One round of the [reduce]: [acc[company] = (acc[company] || 0) + 1].
    The table is [None] from the point where a company name is an
    inherited property name, where what the code adds 1 to is not a
    count. *)
Definition tally (acc : option (gmap jsstring nat)) (person : person)
  : option (gmap jsstring nat) :=
  match acc with
  | None => None
  | Some counts =>
      match counts !! company person with
      | Some n => Some (<[company person := (n + 1)%nat]> counts)
      | None =>
          if bool_decide (company person ∈ inherited) then None
          else Some (<[company person := (0 + 1)%nat]> counts)
      end
  end.

Definition companiesPresent (people : list person)
  : option (gmap jsstring nat) :=
  foldl tally (Some ∅) (peopleCurrentlyPresent people).

(** [person => !person.checkInDate] *)
Definition peopleNotCheckedIn (people : list person) : list person :=
  List.filter (λ person, negb (bool_decide (is_Some (checkInDate person))))
    people.

Definition notCheckedInCount (people : list person) : nat :=
  length (peopleNotCheckedIn people).

(** The people of [l] whose company, with the fallback, is [c]. *)
Definition with_company (c : jsstring) (l : list person) : nat :=
  length (List.filter (λ person, bool_decide (company person = c)) l).

(** The sum of the counts of a table. *)
Definition total (counts : gmap jsstring nat) : nat :=
  map_fold (λ _ n acc, (n + acc)%nat) 0%nat counts.

End EventSummary.

(* ===================================================================== *)
(** ** [EventSelector] and its use by [HomePage]                          *)
(* ===================================================================== *)

Module EventSelector.

(** A prop handed to a component: a value, or a callback that gives the
    parent its new state. *)
Inductive prop :=
| PValue (v : value)
| PCallback (f : value → value).

(** The props object, as the list of the attributes of the element. *)
Definition props := list (string * prop).

(** The prop of that name, [None] when the props object has none
    ([undefined]). *)
Fixpoint prop_get (ps : props) (name : string) : option prop :=
  match ps with
  | [] => None
  | (k, p) :: ps' => if String.eqb k name then Some p else prop_get ps' name
  end.

(** [handleSelectChange(event)], with [selectedValue] the value of the
    select: the parent state [onSelectCommunity] gives, or the
    [TypeError] of calling what is not a function. *)
Definition handleSelectChange (ps : props) (selectedValue : jsstring)
  : outcome value :=
  let communityId :=
    match selectedValue with
    | [] => VNull
    | _ => VString selectedValue
    end in
  match prop_get ps "onSelectCommunity" with
  | Some (PCallback onSelectCommunity) => Return (onSelectCommunity communityId)
  | _ => Throw (JsError "onSelectCommunity is not a function")
  end.

End EventSelector.

Module HomePage.

Import EventSelector.

(** The props [HomePage] gives [EventSelector]:
    [selectedCommunityId={selectedCommunityId}] and
    [setSelectedCommunityId={setSelectedCommunityId}]. *)
Definition selector_props (selectedCommunityId : value) : props :=
  [("selectedCommunityId", PValue selectedCommunityId);
   ("setSelectedCommunityId", PCallback (λ v, v))].

(** The state of the page after a change of the select: an error thrown
    by the handler leaves it as it is. *)
Definition on_change (selectedCommunityId : value) (selectedValue : jsstring)
  : value :=
  match handleSelectChange (selector_props selectedCommunityId) selectedValue with
  | Return s => s
  | Throw _ => selectedCommunityId
  end.

(** The state after the changes [selections], from the initial state
    [useState(null)]. *)
Definition after_changes (selections : list jsstring) : value :=
  foldl on_change VNull selections.

(** [useSubscribe('people', selectedCommunityId)] against the publication
    [handler]. *)
Definition people_subscription
    (handler : value → outcome Publications.returned * list Publications.effect)
    (selectedCommunityId : value) (st : store) : Publications.subscription :=
  Publications.subscribe handler selectedCommunityId st.

End HomePage.

(* ===================================================================== *)
(** ** Sample data                                                        *)
(* ===================================================================== *)

Module Sample.

(** Person P1 of community C1, as provisioned: both dates null. *)
Definition ana : person :=
  {| _id := str "P1"; communityId := str "C1";
     firstName := str "Ana"; lastName := str "Lee";
     companyName := None; title := None;
     checkInDate := None; checkOutDate := None |}.

(** A person of another community. *)
Definition bob : person :=
  {| _id := str "P2"; communityId := str "C2";
     firstName := str "Bob"; lastName := str "Ray";
     companyName := Some (str "Acme"); title := None;
     checkInDate := None; checkOutDate := None |}.

Definition with_dates (p : person) (cin cout : option Z) : person :=
  {| _id := _id p; communityId := communityId p;
     firstName := firstName p; lastName := lastName p;
     companyName := companyName p; title := title p;
     checkInDate := cin; checkOutDate := cout |}.

Definition provisioned : store :=
  {[ str "P1" := ana; str "P2" := bob ]}.

(** P1 present since 1000. *)
Definition ana_present : store :=
  {[ str "P1" := with_dates ana (Some 1000) None; str "P2" := bob ]}.

(** P1 departed at 2000. *)
Definition ana_departed : store :=
  {[ str "P1" := with_dates ana (Some 1000) (Some 2000); str "P2" := bob ]}.

Definition checkIn_ok : object :=
  [("success", VBool true);
   ("message", VString (str "Check-in realizado com sucesso!"))].

Definition checkOut_ok : object :=
  [("success", VBool true);
   ("message", VString (str "Check-out realizado com sucesso!"))].

(** P1 checks in, out, tries to check out again, comes back and leaves;
    in between an unknown person and a blank identifier are tried. *)
Definition busy_day : list (Z * op) :=
  [(1000, CheckIn (VString (str "P1")));
   (2000, CheckOut (VString (str "P1")));
   (2500, CheckOut (VString (str "P1")));
   (2500, CheckOut (VString (str "unknown-id")));
   (3000, CheckIn (VString (str "P1")));
   (3500, CheckIn (VString (str " ")));
   (4000, CheckOut (VString (str "P1")))].

(** P1 checks in at clock reading 2000 and out at 1000: the clock went
    back in between. *)
Definition clock_goes_back : list (Z * op) :=
  [(2000, CheckIn (VString (str "P1")));
   (1000, CheckOut (VString (str "P1")))].

(** Two, and three, calls of [people.checkOut] for P1 in flight. *)
Definition two_calls : list Interleaving.call :=
  [Interleaving.Called (VString (str "P1"));
   Interleaving.Called (VString (str "P1"))].

Definition three_calls : list Interleaving.call :=
  Interleaving.Called (VString (str "P1")) :: two_calls.

(** Both calls read the document before either writes; the writes come
    at clock readings 2000 and 3000. *)
Definition reads_then_writes : list (nat * Z) :=
  [(0%nat, 1500); (1%nat, 1500); (0%nat, 2000); (1%nat, 3000)].

Definition three_reads_then_writes : list (nat * Z) :=
  [(0%nat, 1500); (1%nat, 1500); (2%nat, 1500);
   (0%nat, 2000); (1%nat, 3000); (2%nat, 4000)].

(** One call runs to its end before the other starts. *)
Definition one_after_the_other : list (nat * Z) :=
  [(0%nat, 1500); (0%nat, 2000); (1%nat, 2500); (1%nat, 3000)].

(** The object [{ toString: 1 }], as a client can send it. *)
Definition unprintable : value := VObject [("toString", VNumber 1)].

(** Four guests: two present (one of them without company), one not
    arrived, one departed. *)
Definition guests : list person :=
  [with_dates ana (Some 1000) None;
   with_dates bob (Some 1500) None;
   {| _id := str "P3"; communityId := str "C1";
      firstName := str "Cy"; lastName := str "Doe";
      companyName := Some (str "Acme"); title := None;
      checkInDate := None; checkOutDate := None |};
   {| _id := str "P4"; communityId := str "C1";
      firstName := str "Di"; lastName := str "Poe";
      companyName := Some (str "Acme"); title := None;
      checkInDate := Some 100; checkOutDate := Some 200 |}].

(** 5 March 2024, 09:07, as the getters give it. *)
Definition march_5 : DateFormat.local_date :=
  {| DateFormat.getMonth := 2; DateFormat.getDate := 5;
     DateFormat.getFullYear := 2024;
     DateFormat.getHours := 9; DateFormat.getMinutes := 7 |}.

End Sample.

(* ===================================================================== *)
(** * Properties                                                          *)
(* ===================================================================== *)

(** ** Strings *)

Section Trim.

Lemma trimStart_nil (s : jsstring) : trimStart s = [] ↔ blank s = true.
Proof.
  induction s as [|c s IH]; simpl; [done|].
  destruct (is_whitespace c); simpl; [exact IH|].
  split; discriminate.
Qed.

Lemma trimStart_blank (s : jsstring) :
  blank (trimStart s) = true → trimStart s = [].
Proof.
  induction s as [|c s IH]; simpl; [done|].
  destruct (is_whitespace c) eqn:Hc; [exact IH|].
  simpl. rewrite Hc. discriminate.
Qed.

Lemma blank_app (s t : jsstring) : blank (s ++ t) = blank s && blank t.
Proof. apply forallb_app. Qed.

Lemma blank_rev (s : jsstring) : blank (rev s) = blank s.
Proof.
  induction s as [|c s IH]; [done|].
  simpl. rewrite blank_app, IH. simpl.
  rewrite andb_true_r. apply andb_comm.
Qed.

Lemma rev_eq_nil {A} (l : list A) : rev l = [] → l = [].
Proof.
  intros H. apply (f_equal (@length A)) in H.
  rewrite length_rev in H. by destruct l.
Qed.

(** [!s.trim()] holds exactly of the blank strings. *)
Lemma not_trim_blank (s : jsstring) :
  negb (truthy (VString (trim s))) = blank s.
Proof.
  destruct (blank s) eqn:Hb.
  - apply trimStart_nil in Hb. unfold trim, trimEnd. by rewrite Hb.
  - destruct (trim s) eqn:Ht; [|done]. exfalso.
    unfold trim, trimEnd in Ht. apply rev_eq_nil in Ht.
    apply trimStart_nil in Ht. rewrite blank_rev in Ht.
    apply trimStart_blank, trimStart_nil in Ht. congruence.
Qed.

Lemma valid_id_truthy (s : jsstring) :
  valid_id s → truthy (VString s) = true.
Proof. unfold valid_id. by destruct s. Qed.

End Trim.

(** ** The store *)

Section Store.

Implicit Types (st : store) (p : person) (s : jsstring).

Lemma updateAsync_absent s m st :
  st !! s = None → updateAsync s m st = (0, st).
Proof. intros H. unfold updateAsync. by rewrite H. Qed.

Lemma updateAsync_present s m st p :
  st !! s = Some p → updateAsync s m st = (1, <[s := apply_set m p]> st).
Proof. intros H. unfold updateAsync. by rewrite H. Qed.

End Store.

(** ** The two methods, run to completion *)

Section MethodsSequential.

Import Sample.
Implicit Types (st : store) (p : person) (s : jsstring) (now : Z).

(** The check of [result.modifiedCount] never fires: with a valid
    identifier [people.checkIn] returns, whatever the update found. *)
Lemma checkIn_valid s now st :
  valid_id s →
  checkIn (VString s) now st =
    (Return checkIn_ok, (updateAsync s (checkIn_set now) st).2).
Proof.
  intros Hv. unfold checkIn. rewrite not_trim_blank, Hv.
  fold (checkIn_set now).
  by destruct (updateAsync s (checkIn_set now) st) as [r st'].
Qed.

Lemma checkIn_returns v now st r st' :
  checkIn v now st = (Return r, st') →
  ∃ s, v = VString s ∧ valid_id s ∧ r = checkIn_ok ∧
       st' = (updateAsync s (checkIn_set now) st).2.
Proof.
  destruct v as [| | | | |s| | |]; try discriminate.
  destruct (blank s) eqn:Hb.
  { unfold checkIn. rewrite not_trim_blank, Hb. discriminate. }
  rewrite checkIn_valid by done. intros [= <- <-]. by exists s.
Qed.

Lemma checkIn_present s p now st :
  valid_id s → st !! s = Some p →
  checkIn (VString s) now st =
    (Return checkIn_ok, <[s := apply_set (checkIn_set now) p]> st).
Proof.
  intros Hv Hp. rewrite checkIn_valid by done.
  by rewrite (updateAsync_present _ _ _ p).
Qed.

Lemma checkIn_absent s now st :
  valid_id s → st !! s = None →
  checkIn (VString s) now st = (Return checkIn_ok, st).
Proof.
  intros Hv Hp. rewrite checkIn_valid by done.
  by rewrite updateAsync_absent.
Qed.

Lemma checkOut_find_valid s st :
  valid_id s → checkOut_find (VString s) st = Return (s, st !! s).
Proof.
  intros Hv. unfold checkOut_find. by rewrite not_trim_blank, Hv.
Qed.

Lemma checkOut_update_present s p now st :
  present p →
  checkOut_update s (Some p) now st =
    (Return checkOut_ok, (updateAsync s (checkOut_set now) st).2).
Proof.
  intros [Hin Hout]. unfold checkOut_update.
  rewrite (bool_decide_eq_true_2 _ Hin), Hout. simpl.
  fold (checkOut_set now).
  by destruct (updateAsync s (checkOut_set now) st) as [r st'].
Qed.

Lemma checkOut_set_changes p now :
  checkOutDate p = None → apply_set (checkOut_set now) p ≠ p.
Proof.
  intros Hout Heq. apply (f_equal checkOutDate) in Heq.
  simpl in Heq. congruence.
Qed.

Lemma checkOut_returns v now st r st' :
  checkOut v now st = (Return r, st') →
  ∃ s p, v = VString s ∧ valid_id s ∧ st !! s = Some p ∧ present p ∧
         r = checkOut_ok ∧ st' = <[s := apply_set (checkOut_set now) p]> st.
Proof.
  destruct v as [| | | | |s| | |]; try discriminate.
  unfold checkOut.
  destruct (blank s) eqn:Hb.
  { unfold checkOut_find. rewrite not_trim_blank, Hb. discriminate. }
  rewrite checkOut_find_valid by done. unfold findOneAsync.
  destruct (st !! s) as [p|] eqn:Hp; [|discriminate].
  destruct (checkInDate p) as [cin|] eqn:Hin;
    [|unfold checkOut_update; rewrite Hin; discriminate].
  destruct (checkOutDate p) as [cout|] eqn:Hout;
    [unfold checkOut_update; rewrite Hin, Hout; discriminate|].
  assert (present p) as Hpres by (split; [rewrite Hin; eauto|done]).
  rewrite checkOut_update_present by done.
  rewrite (updateAsync_present _ _ _ p) by done.
  simpl. intros [= <- <-]. by exists s, p.
Qed.

Lemma checkOut_present s p now st :
  valid_id s → st !! s = Some p → present p →
  checkOut (VString s) now st =
    (Return checkOut_ok, <[s := apply_set (checkOut_set now) p]> st).
Proof.
  intros Hv Hp Hpres. unfold checkOut.
  rewrite checkOut_find_valid by done. unfold findOneAsync. rewrite Hp.
  rewrite checkOut_update_present by done.
  by rewrite (updateAsync_present _ _ _ p).
Qed.

End MethodsSequential.

Section MethodClaims.

Import Sample.
Implicit Types (st : store) (p : person) (s : jsstring) (now : Z).

(** C3, the code at the failing input.  The store has no document with
    [_id] 'unknown-id'.  The update of [people.checkIn] resolves to the
    number 0; [result.modifiedCount] of a number is [undefined], which is
    not [=== 0], so the method does not throw 'person-not-found': it
    returns [{ success: true, message }] and leaves the store as it was. *)
Theorem checkIn_unknown_person_returns_success :
  provisioned !! str "unknown-id" = None ∧
  (updateAsync (str "unknown-id") (checkIn_set 1000) provisioned).1 = 0 ∧
  strictly_zero (modifiedCount 0) = false ∧
  checkIn (VString (str "unknown-id")) 1000 provisioned =
    (Return checkIn_ok, provisioned) ∧
  ¬ fails_with (checkIn (VString (str "unknown-id")) 1000 provisioned).1 NotFound.
Proof.
  split_and!; [reflexivity..|].
  intros (e & He & _). discriminate He.
Qed.

(** C5. For every existing Person document, after [people.checkIn]
    returns the stored document has [checkInDate] set to the clock reading
    of the call and [checkOutDate] null, its other fields and the other
    documents being as before.  The update selects by [_id] alone: with a
    valid identifier the call returns for every existing document,
    whatever its dates, be it not yet arrived, present (whose
    [checkInDate] it refreshes) or departed (whose [checkOutDate] it
    resets to null). *)
Theorem checkIn_success_overwrites_session s now st p :
  st !! s = Some p →
  (∀ r st', checkIn (VString s) now st = (Return r, st') →
     ∃ p', st' !! s = Some p' ∧
           checkInDate p' = Some now ∧ checkOutDate p' = None ∧
           p' = apply_set (checkIn_set now) p ∧
           (∀ s', s' ≠ s → st' !! s' = st !! s')) ∧
  (valid_id s →
     checkIn (VString s) now st =
       (Return checkIn_ok, <[s := apply_set (checkIn_set now) p]> st)) ∧
  (valid_id s → is_Some (checkOutDate p) →
     succeeds (checkIn (VString s) now st).1) ∧
  (valid_id s → present p →
     succeeds (checkIn (VString s) now st).1) ∧
  (valid_id s → checkInDate p = None → checkOutDate p = None →
     succeeds (checkIn (VString s) now st).1).
Proof.
  intros Hp.
  assert (valid_id s → succeeds (checkIn (VString s) now st).1) as Hok.
  { intros Hv. rewrite (checkIn_present s p) by done. by eexists. }
  split_and!; [|intros Hv; by apply checkIn_present|auto..].
  intros r st' Hrun.
  destruct (checkIn_returns _ _ _ _ _ Hrun) as (s0 & [= <-] & _ & _ & ->).
  rewrite (updateAsync_present _ _ _ p) by done. simpl.
  exists (apply_set (checkIn_set now) p). split_and!; try done.
  - apply lookup_insert_eq.
  - intros s' Hne. by apply lookup_insert_ne.
Qed.

Lemma checkIn_success_overwrites_session_witness :
  ana_departed !! str "P1" = Some (with_dates ana (Some 1000) (Some 2000)) ∧
  valid_id (str "P1") ∧
  checkIn (VString (str "P1")) 5000 ana_departed =
    (Return checkIn_ok,
     <[str "P1" := with_dates ana (Some 5000) None]> ana_departed) ∧
  ∃ p', (<[str "P1" := with_dates ana (Some 5000) None]> ana_departed)
          !! str "P1" = Some p' ∧
        checkInDate p' = Some 5000 ∧ checkOutDate p' = None.
Proof.
  assert (ana_departed !! str "P1" = Some (with_dates ana (Some 1000) (Some 2000)))
    as Hp by reflexivity.
  assert (valid_id (str "P1")) as Hv by reflexivity.
  pose proof (checkIn_success_overwrites_session
                (str "P1") 5000 ana_departed _ Hp) as (H1 & H2 & _).
  split_and!; [exact Hp|exact Hv|exact (H2 Hv)|].
  destruct (H1 _ _ (H2 Hv)) as (p' & Hp' & Hin & Hout & _).
  exists p'. split_and!; assumption.
Defined.

(** C6, as the code has it.  Every call of [people.checkIn] or
    [people.checkOut] that returns, returns an object with the two
    properties [success], which is [true], and [message], the fixed
    confirmation text of the method; the object has no [timestamp]. *)
Theorem method_result_is_success_and_message v now st r st' :
  (checkIn v now st = (Return r, st') →
     r = [("success", VBool true);
          ("message", VString (str "Check-in realizado com sucesso!"))]) ∧
  (checkOut v now st = (Return r, st') →
     r = [("success", VBool true);
          ("message", VString (str "Check-out realizado com sucesso!"))]) ∧
  (checkIn v now st = (Return r, st') ∨ checkOut v now st = (Return r, st') →
     get r "success" = VBool true ∧ get r "timestamp" = VUndefined).
Proof.
  assert (checkIn v now st = (Return r, st') → r = checkIn_ok) as Hin.
  { intros H. by destruct (checkIn_returns _ _ _ _ _ H) as (? & _ & _ & -> & _). }
  assert (checkOut v now st = (Return r, st') → r = checkOut_ok) as Hout.
  { intros H. by destruct (checkOut_returns _ _ _ _ _ H) as (? & ? & _ & _ & _ & _ & -> & _). }
  split_and!; [exact Hin|exact Hout|].
  intros [H|H]; [rewrite (Hin H)|rewrite (Hout H)]; by split.
Qed.

Lemma method_result_is_success_and_message_witness :
  ∃ st', checkOut (VString (str "P1")) 2000 ana_present = (Return checkOut_ok, st') ∧
         get checkOut_ok "success" = VBool true ∧
         get checkOut_ok "timestamp" = VUndefined.
Proof.
  exists (<[str "P1" := with_dates ana (Some 1000) (Some 2000)]> ana_present).
  assert (checkOut (VString (str "P1")) 2000 ana_present =
            (Return checkOut_ok,
             <[str "P1" := with_dates ana (Some 1000) (Some 2000)]> ana_present))
    as Hrun by (vm_compute; reflexivity).
  split; [exact Hrun|].
  exact (proj2 (proj2 (method_result_is_success_and_message
                         _ _ _ _ _)) (or_intror Hrun)).
Defined.

(** C6, as stated, fails: the check-in of P1 at clock reading 1000
    returns, and the object it returns has no [timestamp]. *)
Lemma checkIn_result_has_no_timestamp :
  ∃ r st', checkIn (VString (str "P1")) 1000 provisioned = (Return r, st') ∧
           get r "timestamp" = VUndefined ∧
           ¬ carries_timestamp r 1000.
Proof.
  exists checkIn_ok, (<[str "P1" := with_dates ana (Some 1000) None]> provisioned).
  split_and!; [by vm_compute|done|].
  intros [_ H]. discriminate H.
Qed.

(** C4. For every valid [personId], [people.checkOut] fails with
    [NotFound] when the store has no document for it, with
    [InvalidState "not-checked-in"] when the document's [checkInDate] is
    null, and with [InvalidState "already-checked-out"] when the document
    is checked in and its [checkOutDate] is not null; the store is left as
    it was in the three cases.  In particular, once a check-out has
    returned, a second one on the store it leaves fails with
    [InvalidState "already-checked-out"]. *)
Theorem checkOut_precheck_failures s now st :
  valid_id s →
  (st !! s = None →
     fails_with (checkOut (VString s) now st).1 NotFound ∧
     (checkOut (VString s) now st).2 = st) ∧
  (∀ p, st !! s = Some p → checkInDate p = None →
     fails_with (checkOut (VString s) now st).1 (InvalidState "not-checked-in") ∧
     (checkOut (VString s) now st).2 = st) ∧
  (∀ p, st !! s = Some p → is_Some (checkInDate p) → is_Some (checkOutDate p) →
     fails_with (checkOut (VString s) now st).1 (InvalidState "already-checked-out") ∧
     (checkOut (VString s) now st).2 = st) ∧
  (∀ r st' now', checkOut (VString s) now st = (Return r, st') →
     fails_with (checkOut (VString s) now' st').1 (InvalidState "already-checked-out") ∧
     (checkOut (VString s) now' st').2 = st').
Proof.
  intros Hv.
  assert (∀ st0 p, st0 !! s = Some p → is_Some (checkInDate p) →
            is_Some (checkOutDate p) → ∀ t,
            fails_with (checkOut (VString s) t st0).1
              (InvalidState "already-checked-out") ∧
            (checkOut (VString s) t st0).2 = st0) as Hdeparted.
  { intros st0 p Hp [cin Hin] [cout Hout] t. unfold checkOut.
    rewrite checkOut_find_valid by done. unfold findOneAsync. rewrite Hp.
    unfold checkOut_update. rewrite Hin, Hout. simpl.
    split; [|done]. eexists; split; [reflexivity|done]. }
  split_and!.
  - intros Hnone. unfold checkOut.
    rewrite checkOut_find_valid by done. unfold findOneAsync. rewrite Hnone.
    simpl. split; [|done]. eexists; split; [reflexivity|done].
  - intros p Hp Hin. unfold checkOut.
    rewrite checkOut_find_valid by done. unfold findOneAsync. rewrite Hp.
    unfold checkOut_update. rewrite Hin. simpl.
    split; [|done]. eexists; split; [reflexivity|done].
  - intros p Hp Hin Hout. by apply (Hdeparted st p).
  - intros r st' now' Hrun.
    destruct (checkOut_returns _ _ _ _ _ Hrun)
      as (s0 & p & [= <-] & _ & Hp & [Hin _] & _ & ->).
    apply (Hdeparted _ (apply_set (checkOut_set now) p)).
    + apply lookup_insert_eq.
    + done.
    + simpl. eauto.
Qed.

Lemma checkOut_precheck_failures_witness :
  valid_id (str "P1") ∧
  ∃ st', checkOut (VString (str "P1")) 2000 ana_present = (Return checkOut_ok, st') ∧
         fails_with (checkOut (VString (str "P1")) 3000 st').1
           (InvalidState "already-checked-out").
Proof.
  assert (valid_id (str "P1")) as Hv by reflexivity.
  split; [exact Hv|].
  exists (<[str "P1" := with_dates ana (Some 1000) (Some 2000)]> ana_present).
  assert (checkOut (VString (str "P1")) 2000 ana_present =
            (Return checkOut_ok,
             <[str "P1" := with_dates ana (Some 1000) (Some 2000)]> ana_present))
    as Hrun by (vm_compute; reflexivity).
  split; [exact Hrun|].
  exact (proj1 (proj2 (proj2 (proj2
    (checkOut_precheck_failures (str "P1") 2000 ana_present Hv)))
    _ _ 3000 Hrun)).
Defined.

End MethodClaims.

(** ** The ordering of the dates *)

Section Ordering.

Implicit Types (st : store) (p : person) (s : jsstring) (now t : Z).

Lemma checkIn_store v now st :
  (checkIn v now st).2 = st ∨
  ∃ s p, st !! s = Some p ∧
         (checkIn v now st).2 = <[s := apply_set (checkIn_set now) p]> st.
Proof.
  destruct v as [| | | | |s| | |]; try by left.
  destruct (blank s) eqn:Hb.
  { left. unfold checkIn. by rewrite not_trim_blank, Hb. }
  rewrite checkIn_valid by done. unfold updateAsync.
  destruct (st !! s) as [p|] eqn:Hp; [|by left].
  right. by exists s, p.
Qed.

Lemma checkOut_store v now st :
  (checkOut v now st).2 = st ∨
  ∃ s p, st !! s = Some p ∧ present p ∧
         (checkOut v now st).2 = <[s := apply_set (checkOut_set now) p]> st.
Proof.
  destruct v as [| | | | |s| | |]; try by left.
  destruct (blank s) eqn:Hb.
  { left. unfold checkOut, checkOut_find. by rewrite not_trim_blank, Hb. }
  destruct (st !! s) as [p|] eqn:Hp.
  - destruct (checkInDate p) as [cin|] eqn:Hin.
    + destruct (checkOutDate p) as [cout|] eqn:Hout.
      * left. unfold checkOut. rewrite checkOut_find_valid by done.
        unfold findOneAsync. rewrite Hp. unfold checkOut_update.
        by rewrite Hin, Hout.
      * right. exists s, p.
        assert (present p) as Hpres by (split; [rewrite Hin; eauto|done]).
        split_and!; [done..|]. by rewrite (checkOut_present s p).
    + left. unfold checkOut. rewrite checkOut_find_valid by done.
      unfold findOneAsync. rewrite Hp. unfold checkOut_update.
      by rewrite Hin.
  - left. unfold checkOut. rewrite checkOut_find_valid by done.
    unfold findOneAsync. by rewrite Hp.
Qed.

Lemma exec_preserves_order o now t st :
  t ≤ now → store_ordered st → checked_in_by t st →
  store_ordered (exec o now st).2 ∧ checked_in_by now (exec o now st).2.
Proof.
  intros Hle Hord Hby.
  assert (checked_in_by now st) as Hby'.
  { intros s p d Hp Hd. specialize (Hby s p d Hp Hd). lia. }
  destruct o as [v|v]; simpl.
  - destruct (checkIn_store v now st) as [->|(s & p & Hp & ->)]; [done|].
    split.
    + intros s' p'. rewrite lookup_insert. case_decide; [|by apply Hord].
      intros [= <-] out. simpl. discriminate.
    + intros s' p' d. rewrite lookup_insert. case_decide; [|by apply Hby'].
      intros [= <-]. simpl. intros [= <-]. lia.
  - destruct (checkOut_store v now st) as [->|(s & p & Hp & [[cin Hin] Hout] & ->)];
      [done|].
    split.
    + intros s' p'. rewrite lookup_insert. case_decide; [|by apply Hord].
      intros [= <-] out. simpl. intros [= <-].
      exists cin. split; [done|]. specialize (Hby s p cin Hp Hin). lia.
    + intros s' p' d. rewrite lookup_insert. case_decide; [|by apply Hby'].
      intros [= <-]. simpl. intros Hd. by apply (Hby' s p d).
Qed.

Lemma run_ops_preserves_order ops : ∀ t st,
  nondecreasing t ops.*1 → store_ordered st → checked_in_by t st →
  store_ordered (run_ops ops st).
Proof.
  induction ops as [|[now o] ops IH]; intros t st Hmono Hord Hby; [done|].
  simpl in *. destruct Hmono as [Hle Hmono].
  destruct (exec_preserves_order o now t st Hle Hord Hby) as [Hord' Hby'].
  by apply (IH now).
Qed.

(** C9, as amended.  Let the documents of the store have their dates in
    order ([checkOutDate] not null implies [checkInDate] not null and not
    later), and let the clock never go back: no stored check-in date is
    later than [t0], and the operations are run at clock readings that do
    not decrease from [t0] on.  Then after every sequence of
    [people.checkIn] and [people.checkOut] calls, with any arguments,
    every document of the store has its dates in order. *)
Theorem dates_ordered_after_any_operations ops t0 st :
  store_ordered st → checked_in_by t0 st → nondecreasing t0 ops.*1 →
  ∀ s p out, run_ops ops st !! s = Some p → checkOutDate p = Some out →
    ∃ cin, checkInDate p = Some cin ∧ cin ≤ out.
Proof.
  intros Hord Hby Hmono s p out Hp.
  by apply (run_ops_preserves_order ops t0 st Hmono Hord Hby s p).
Qed.

Lemma provisioned_lookup s p :
  Sample.provisioned !! s = Some p → p = Sample.ana ∨ p = Sample.bob.
Proof.
  unfold Sample.provisioned. rewrite lookup_insert. case_decide.
  - intros [= <-]. by left.
  - rewrite lookup_singleton. case_decide; [|done]. intros [= <-]. by right.
Qed.

Lemma dates_ordered_after_any_operations_witness :
  store_ordered Sample.provisioned ∧ checked_in_by 0 Sample.provisioned ∧
  nondecreasing 0 Sample.busy_day.*1 ∧
  ∃ p, run_ops Sample.busy_day Sample.provisioned !! str "P1" = Some p ∧
       checkOutDate p = Some 4000 ∧
       ∃ cin, checkInDate p = Some cin ∧ cin ≤ 4000.
Proof.
  assert (store_ordered Sample.provisioned) as Hord.
  { intros s p Hp out.
    destruct (provisioned_lookup s p Hp) as [-> | ->]; discriminate. }
  assert (checked_in_by 0 Sample.provisioned) as Hby.
  { intros s p d Hp.
    destruct (provisioned_lookup s p Hp) as [-> | ->]; discriminate. }
  assert (nondecreasing 0 Sample.busy_day.*1) as Hmono by (simpl; lia).
  split_and!; [exact Hord|exact Hby|exact Hmono|].
  exists (Sample.with_dates Sample.ana (Some 3000) (Some 4000)).
  assert (run_ops Sample.busy_day Sample.provisioned !! str "P1" =
            Some (Sample.with_dates Sample.ana (Some 3000) (Some 4000)))
    as Hp by (vm_compute; reflexivity).
  split_and!; [exact Hp|reflexivity|].
  exact (dates_ordered_after_any_operations Sample.busy_day 0 Sample.provisioned
           Hord Hby Hmono _ _ 4000 Hp eq_refl).
Defined.

(** C9, as stated, fails: the methods take their dates from the clock as
    it reads.  From the provisioned store, whose dates are all null, P1
    checks in at clock reading 2000 and out at clock reading 1000; both
    calls return, and the document ends with a check-out date earlier
    than its check-in date. *)
Lemma dates_out_of_order_when_clock_goes_back :
  store_ordered Sample.provisioned ∧
  run_ops Sample.clock_goes_back Sample.provisioned !! str "P1" =
    Some (Sample.with_dates Sample.ana (Some 2000) (Some 1000)) ∧
  ¬ ordered (Sample.with_dates Sample.ana (Some 2000) (Some 1000)) ∧
  ¬ store_ordered (run_ops Sample.clock_goes_back Sample.provisioned).
Proof.
  assert (¬ ordered (Sample.with_dates Sample.ana (Some 2000) (Some 1000)))
    as Hno.
  { intros Hord. destruct (Hord 1000 eq_refl) as (cin & [= <-] & Hle). lia. }
  split_and!.
  - intros s p Hp out.
    destruct (provisioned_lookup s p Hp) as [-> | ->]; discriminate.
  - by vm_compute.
  - exact Hno.
  - intros Hall. apply Hno. apply (Hall (str "P1")). by vm_compute.
Qed.

End Ordering.

(** ** The publication *)

Section PublicationClaims.

Import Publications.
Implicit Types (st : store) (p : person) (s : jsstring).

Lemma people_function_valid s :
  valid_id s →
  people_function (VString s) =
    (Return (RCursor (PeopleFind s)), [ConsoleLog; ConsoleLog]).
Proof.
  intros Hv. unfold people_function.
  by rewrite (valid_id_truthy s Hv), not_trim_blank, Hv.
Qed.

Lemma people_arrow_valid s :
  valid_id s → people_arrow (VString s) = (Return (RCursor (PeopleFind s)), []).
Proof.
  intros Hv. unfold people_arrow.
  by rewrite (valid_id_truthy s Hv), not_trim_blank, Hv.
Qed.

Lemma find_lookup s st id p :
  find s st !! id = Some p ↔ st !! id = Some p ∧ communityId p = s.
Proof. unfold find. by rewrite map_lookup_filter_Some. Qed.

(** For an argument that is missing, not a string, or blank, the
    variant that returns [[]] always gives a ready, empty subscription;
    the variant that logs gives the same provided the conversion of the
    argument to a string does not throw. *)
Lemma people_invalid_filter v st :
  invalid_filter v = true →
  (toString_throws v = false →
     subscribe people_function v st =
       {| ready := true; documents := ∅; scans := 0; error := None |}) ∧
  subscribe people_arrow v st =
    {| ready := true; documents := ∅; scans := 0; error := None |}.
Proof.
  intros Hinv. unfold subscribe, people_function, people_arrow. split.
  - intros ->.
    destruct v as [| |b|n| |s| |items|props]; try done.
    + by destruct b.
    + simpl. by destruct (n =? 0).
    + simpl in Hinv. rewrite not_trim_blank, Hinv. by destruct s.
  - destruct v as [| |b|n| |s| |items|props]; try done.
    + by destruct b.
    + simpl. by destruct (n =? 0).
    + simpl in Hinv. rewrite not_trim_blank, Hinv. by destruct s.
Qed.

(** C7, the code at the failing input.  The argument is the object
    [{ toString: 1 }]: not a string, so an invalid filter.  The variant
    of the publication that logs converts it to a string in its first
    statement, before any check; the conversion throws a [TypeError], the
    handler throws with it, and the subscription ends with an error and
    is not ready.  The variant that returns [[]] gives the ready, empty
    subscription for the same argument. *)
Theorem people_function_throws_before_validation :
  invalid_filter Sample.unprintable = true ∧
  toString_throws Sample.unprintable = true ∧
  people_function Sample.unprintable =
    (Throw (JsError "Cannot convert object to primitive value"), []) ∧
  (∀ st, subscribe people_function Sample.unprintable st =
           {| ready := false; documents := ∅; scans := 0;
              error := Some (JsError "Cannot convert object to primitive value") |}) ∧
  (∀ st, subscribe people_arrow Sample.unprintable st =
           {| ready := true; documents := ∅; scans := 0; error := None |}).
Proof. split_and!; try reflexivity; intros st; reflexivity. Qed.

(** C8. For every valid [communityId] (a string that is not blank), the
    subscription to [people] is ready, without error, and its documents
    are exactly the Person documents of the store whose [communityId]
    field equals the argument: every such document is in the result and
    no document of another community is; this holds of both variants of
    the publication. *)
Theorem people_valid_filter_exact_community s st :
  valid_id s →
  let sub1 := subscribe people_function (VString s) st in
  let sub2 := subscribe people_arrow (VString s) st in
  (ready sub1 = true ∧ error sub1 = None ∧
   ∀ id p, documents sub1 !! id = Some p ↔
           st !! id = Some p ∧ communityId p = s) ∧
  (ready sub2 = true ∧ error sub2 = None ∧
   ∀ id p, documents sub2 !! id = Some p ↔
           st !! id = Some p ∧ communityId p = s).
Proof.
  intros Hv. unfold subscribe.
  rewrite people_function_valid, people_arrow_valid by done. simpl.
  split; (split_and!; [done..|apply find_lookup]).
Qed.

Lemma people_valid_filter_exact_community_witness :
  valid_id (str "C1") ∧
  documents (subscribe people_function (VString (str "C1")) Sample.ana_present)
    !! str "P1" = Some (Sample.with_dates Sample.ana (Some 1000) None) ∧
  documents (subscribe people_arrow (VString (str "C1")) Sample.ana_present)
    !! str "P2" = None.
Proof.
  assert (valid_id (str "C1")) as Hv by reflexivity.
  pose proof (people_valid_filter_exact_community
                (str "C1") Sample.ana_present Hv) as [(_ & _ & H1) (_ & _ & H2)].
  split_and!; [exact Hv| |].
  - apply H1. split; reflexivity.
  - destruct (documents _ !! str "P2") as [q|] eqn:Hq; [|reflexivity].
    apply H2 in Hq as [Hq Hc]. exfalso.
    assert (Sample.ana_present !! str "P2" = Some Sample.bob) as Hb
      by reflexivity.
    rewrite Hb in Hq. injection Hq as <-. discriminate Hc.
Defined.

End PublicationClaims.

(** ** The action button *)

Section ButtonClaims.

Import PeopleList.

(** C10. For every person who is present ([checkInDate] not null,
    [checkOutDate] null): while fewer than 5 seconds (5000 ms) have gone
    by since [checkInDate], [renderActionButton] gives a disabled button
    without click handler that shows the seconds left, so the check-out
    cannot be called; from 5 seconds on it gives the enabled button whose
    click handler calls the method [people.checkOut] with the person's
    [_id]. *)
Theorem renderActionButton_present_waits_five_seconds (p : person) (cin now : Z) :
  checkInDate p = Some cin → checkOutDate p = None →
  (now - cin < 5000 →
     renderActionButton p now =
       button true None
         [Text (str "Aguarde... ("); Num (5 - (now - cin) / 1000);
          Text (str "s)")] ∧
     0 < 5 - (now - cin) / 1000) ∧
  (5000 ≤ now - cin →
     renderActionButton p now =
       button false (Some (handleCheckOut (_id p)))
         [Text (str "Check-out ");
          Text (firstName p ++ str " " ++ lastName p)] ∧
     callAsync (handleCheckOut (_id p)) = ("people.checkOut"%string, _id p)).
Proof.
  intros Hin Hout. unfold renderActionButton, getTimeDifferenceInSeconds.
  rewrite Hin, Hout. simpl. split.
  - intros Hlt.
    assert ((now - cin) / 1000 < 5) as Hq
      by (apply Z.div_lt_upper_bound; lia).
    apply Z.ltb_lt in Hq as Hq'. rewrite Hq'. split; [done|lia].
  - intros Hge.
    assert (5 ≤ (now - cin) / 1000) as Hq
      by (apply Z.div_le_lower_bound; lia).
    apply Z.ltb_ge in Hq. by rewrite Hq.
Qed.

Lemma renderActionButton_present_waits_five_seconds_witness :
  checkInDate (Sample.with_dates Sample.ana (Some 1000) None) = Some 1000 ∧
  renderActionButton (Sample.with_dates Sample.ana (Some 1000) None) 5999 =
    button true None
      [Text (str "Aguarde... ("); Num 1; Text (str "s)")] ∧
  renderActionButton (Sample.with_dates Sample.ana (Some 1000) None) 6000 =
    button false (Some (handleCheckOut (str "P1")))
      [Text (str "Check-out "); Text (str "Ana Lee")].
Proof.
  split_and!; [reflexivity| |].
  - exact (proj1 (proj1 (renderActionButton_present_waits_five_seconds
             (Sample.with_dates Sample.ana (Some 1000) None) 1000 5999
             eq_refl eq_refl) ltac:(lia))).
  - exact (proj1 (proj2 (renderActionButton_present_waits_five_seconds
             (Sample.with_dates Sample.ana (Some 1000) None) 1000 6000
             eq_refl eq_refl) ltac:(lia))).
Defined.

End ButtonClaims.

(** ** Calls of [people.checkOut] that overlap *)

Section Overlap.

Import Interleaving Sample.
Implicit Types (st : store) (p q : person) (s : jsstring) (now : Z).

(** A call whose two steps follow each other is the method run without
    interruption. *)
Lemma step_step_checkOut v t now st :
  let '(c1, st1) := step t (Called v) st in
  step now c1 st1 = (Settled (checkOut v now st).1, (checkOut v now st).2).
Proof.
  unfold step, checkOut.
  destruct (checkOut_find v st) as [[s found]|e]; [|done].
  by destruct (checkOut_update s found now st).
Qed.

(** The write looks at the document that was read, not at the stored
    one: with a present document read earlier, it goes through on
    whatever document the store holds by then. *)
Lemma checkOut_update_stale s q p now st :
  present q → st !! s = Some p →
  checkOut_update s (Some q) now st =
    (Return checkOut_ok, <[s := apply_set (checkOut_set now) p]> st).
Proof.
  intros Hq Hp. rewrite checkOut_update_present by done.
  by rewrite (updateAsync_present _ _ _ p).
Qed.

(** The check of [result.modifiedCount] after the write never fires: no
    step of [people.checkOut] throws 'update-failed'. *)
Lemma checkOut_update_never_conflict s found now st :
  ¬ fails_with (checkOut_update s found now st).1 ConcurrencyConflict.
Proof.
  intros (e & He & Hk). unfold checkOut_update in He.
  destruct found as [q|]; [|injection He as <-; discriminate Hk].
  destruct (checkInDate q); simpl in He;
    [|injection He as <-; discriminate Hk].
  destruct (checkOutDate q); simpl in He;
    [injection He as <-; discriminate Hk|].
  destruct (updateAsync _ _ _) as [r st']. discriminate He.
Qed.

(** C1, the code at the failing input.  A call read P1 while P1 was
    present; by the time it writes, at clock reading 3000, another call
    has checked P1 out at 2000.  The stored document no longer satisfies
    [checkInDate != null && checkOutDate == null], yet the update affects
    one document, the call returns success, and the stored check-out date
    is replaced by 3000. *)
Theorem checkOut_write_ignores_stored_checkOutDate :
  ana_departed !! str "P1" = Some (with_dates ana (Some 1000) (Some 2000)) ∧
  (updateAsync (str "P1") (checkOut_set 3000) ana_departed).1 = 1 ∧
  checkOut_update (str "P1") (Some (with_dates ana (Some 1000) None)) 3000
      ana_departed =
    (Return checkOut_ok,
     <[str "P1" := with_dates ana (Some 1000) (Some 3000)]> ana_departed).
Proof. split_and!; by vm_compute. Qed.

(** C2, the code at the failing input.  P1 is present and two calls of
    [people.checkOut] for P1 overlap, both reading before either writes:
    both return success and the check-out date written by the first, 2000,
    is replaced by that of the second, 3000.  With three calls all three
    return success. *)
Theorem checkOut_overlapping_calls_all_succeed :
  run reads_then_writes two_calls ana_present =
    ([Settled (Return checkOut_ok); Settled (Return checkOut_ok)],
     <[str "P1" := with_dates ana (Some 1000) (Some 3000)]> ana_present) ∧
  successes (run reads_then_writes two_calls ana_present).1 = 2%nat ∧
  successes (run three_reads_then_writes three_calls ana_present).1 = 3%nat ∧
  (run three_reads_then_writes three_calls ana_present).2 !! str "P1" =
    Some (with_dates ana (Some 1000) (Some 4000)).
Proof. split_and!; by vm_compute. Qed.

(** Run one after the other, the same two calls do what is expected: the
    first returns, the second fails with [InvalidState
    "already-checked-out"], and the date of the first stays. *)
Lemma checkOut_calls_in_turn :
  ∃ e, run one_after_the_other two_calls ana_present =
         ([Settled (Return checkOut_ok); Settled (Throw e)],
          <[str "P1" := with_dates ana (Some 1000) (Some 2000)]> ana_present) ∧
       failure_of e = Some (InvalidState "already-checked-out").
Proof. eexists. split; by vm_compute. Qed.

Lemma run_app sched1 sched2 calls st :
  run (sched1 ++ sched2) calls st =
    run sched2 (run sched1 calls st).1 (run sched1 calls st).2.
Proof.
  revert calls st. induction sched1 as [|[i now] sched1 IH]; intros calls st;
    [done|].
  simpl. destruct (calls !! i) as [c|]; [|apply IH].
  destruct (step now c st). apply IH.
Qed.

Lemma run_cons i now sched calls st c :
  calls !! i = Some c →
  run ((i, now) :: sched) calls st =
    run sched (<[i := (step now c st).1]> calls) (step now c st).2.
Proof. intros H. simpl. rewrite H. by destruct (step now c st). Qed.

Lemma round_S clock k n :
  round clock k (S n) = (k, clock k) :: round clock (S k) n.
Proof. done. Qed.

Lemma step_called_valid s now st :
  valid_id s → step now (Called (VString s)) st = (Found s (st !! s), st).
Proof. intros Hv. unfold step. by rewrite checkOut_find_valid. Qed.

Lemma lookup_middle (pre post : list call) c :
  (pre ++ c :: post) !! length pre = Some c.
Proof. by rewrite list_lookup_middle. Qed.

Lemma insert_middle (pre post : list call) c c' :
  <[length pre := c']> (pre ++ c :: post) = (pre ++ [c']) ++ post.
Proof.
  rewrite insert_app_r_alt by lia. rewrite Nat.sub_diag. simpl.
  by rewrite <- app_assoc.
Qed.

(** A round in which every call that has not started yet takes one and
    the same step, leaving the store alone. *)
Lemma run_round_reads clock s st n : ∀ k pre,
  valid_id s → length pre = k →
  run (round clock k n) (pre ++ replicate n (Called (VString s))) st =
    (pre ++ replicate n (Found s (st !! s)), st).
Proof.
  induction n as [|n IH]; intros k pre Hv <-; [done|].
  rewrite round_S. cbn [replicate].
  rewrite (run_cons _ _ _ _ _ _ (lookup_middle _ _ _)).
  rewrite step_called_valid by done. cbn [fst snd].
  rewrite insert_middle.
  rewrite (IH (S (length pre))); [|done|rewrite length_app; simpl; lia].
  by rewrite <- app_assoc.
Qed.

(** A round of writes by calls that all read the same present document:
    each write goes through; with a clock that moves on, the date left
    in the store is that of the last call. *)
Lemma run_round_writes clock s q n : ∀ k pre st p,
  present q → length pre = k → st !! s = Some p →
  (∀ d, checkOutDate p = Some d → d < clock k) →
  (∀ i, clock i < clock (S i)) →
  ∃ st' p',
    run (round clock k n) (pre ++ replicate n (Found s (Some q))) st =
      (pre ++ replicate n (Settled (Return checkOut_ok)), st') ∧
    st' !! s = Some p' ∧
    (n ≠ 0%nat → checkOutDate p' = Some (clock (k + n - 1)%nat)).
Proof.
  induction n as [|n IH]; intros k pre st p Hq <- Hp Hlt Hclock.
  { exists st, p. by rewrite !app_nil_r. }
  rewrite round_S. cbn [replicate].
  rewrite (run_cons _ _ _ _ _ _ (lookup_middle _ _ _)).
  assert (step (clock (length pre)) (Found s (Some q)) st =
            (Settled (Return checkOut_ok),
             <[s := apply_set (checkOut_set (clock (length pre))) p]> st))
    as ->.
  { unfold step. by rewrite (checkOut_update_stale s q p). }
  cbn [fst snd]. rewrite insert_middle.
  destruct (IH (S (length pre)) (pre ++ [Settled (Return checkOut_ok)])
              (<[s := apply_set (checkOut_set (clock (length pre))) p]> st)
              (apply_set (checkOut_set (clock (length pre))) p))
    as (st' & p' & Hrun & Hp' & Hd).
  - done.
  - rewrite length_app. simpl. lia.
  - apply lookup_insert_eq.
  - simpl. intros d [= <-]. apply Hclock.
  - done.
  - rewrite Hrun, <- app_assoc. cbn [app].
    destruct n as [|n].
    + exists (<[s := apply_set (checkOut_set (clock (length pre))) p]> st),
             (apply_set (checkOut_set (clock (length pre))) p).
      apply (f_equal snd) in Hrun. simpl in Hrun. subst st'.
      split_and!; [done|apply lookup_insert_eq|].
      intros _. simpl. do 2 f_equal. lia.
    + exists st', p'. split_and!; [done..|].
      intros _. rewrite Hd by done. do 2 f_equal. lia.
Qed.

Lemma successes_replicate n r :
  successes (replicate n (Settled (Return r))) = n.
Proof.
  unfold successes. induction n as [|n IH]; [done|]. simpl. by rewrite IH.
Qed.

(** X22. Any number of calls for one present person can overlap so that
    all of them return: they all read first, then write one after the
    other while the clock moves on; the stored check-out date is that of
    the last write. *)
Lemma checkOut_overlap_any_number n s p st reading clock :
  (2 ≤ n)%nat → valid_id s → st !! s = Some p → present p →
  (∀ d, checkOutDate p = Some d → d < clock 0%nat) →
  (∀ i, clock i < clock (S i)) →
  ∃ st' p',
    run (round (λ _, reading) 0 n ++ round clock 0 n)
        (replicate n (Called (VString s))) st =
      (replicate n (Settled (Return checkOut_ok)), st') ∧
    successes (replicate n (Settled (Return checkOut_ok))) = n ∧
    st' !! s = Some p' ∧ checkOutDate p' = Some (clock (n - 1)%nat).
Proof.
  intros Hn Hv Hp Hpres Hlt Hclock. rewrite run_app.
  rewrite (run_round_reads _ s st n 0 [] Hv eq_refl). simpl. rewrite Hp.
  destruct (run_round_writes clock s p n 0 [] st p Hpres eq_refl Hp Hlt Hclock)
    as (st' & p' & Hrun & Hp' & Hd).
  exists st', p'. split_and!; [done|apply successes_replicate|done|].
  rewrite Hd by lia. do 2 f_equal.
Qed.

End Overlap.

(** ** More on the two methods *)

Section MethodFacts.

Import Sample.
Implicit Types (st : store) (p : person) (s : jsstring) (now : Z) (v : value).

Lemma checkIn_invalid v now st :
  (∀ s, v = VString s → blank s = true) →
  ∃ reason, checkIn v now st = (Throw (MeteorError "invalid-argument" reason), st).
Proof.
  intros Hv. destruct v as [| | | | |s| | |]; try by eexists.
  unfold checkIn. rewrite not_trim_blank, (Hv s eq_refl). by eexists.
Qed.

Lemma checkOut_invalid v now st :
  (∀ s, v = VString s → blank s = true) →
  ∃ reason, checkOut v now st = (Throw (MeteorError "invalid-argument" reason), st).
Proof.
  intros Hv. unfold checkOut, checkOut_find.
  destruct v as [| | | | |s| | |]; try by eexists.
  rewrite not_trim_blank, (Hv s eq_refl). by eexists.
Qed.

(** What [people.checkIn] does with a valid identifier, case by case. *)
Lemma checkIn_cases s now st :
  valid_id s →
  (st !! s = None ∧
   checkIn (VString s) now st = (Return checkIn_ok, st)) ∨
  (∃ p, st !! s = Some p ∧
        checkIn (VString s) now st =
          (Return checkIn_ok, <[s := apply_set (checkIn_set now) p]> st)).
Proof.
  intros Hv. destruct (st !! s) as [p|] eqn:Hp.
  - right. exists p. split; [done|]. by apply checkIn_present.
  - left. split; [done|]. by apply checkIn_absent.
Qed.

(** What [people.checkOut], run without interruption, does with a valid
    identifier, case by case. *)
Lemma checkOut_cases s now st :
  valid_id s →
  (st !! s = None ∧
   checkOut (VString s) now st =
     (Throw (MeteorError "person-not-found" "Pessoa não encontrada."), st)) ∨
  (∃ p, st !! s = Some p ∧ checkInDate p = None ∧
        checkOut (VString s) now st =
          (Throw (MeteorError "invalid-operation"
                    "Não é possível fazer check-out sem ter feito check-in primeiro."),
           st)) ∨
  (∃ p, st !! s = Some p ∧ departed p ∧
        checkOut (VString s) now st =
          (Throw (MeteorError "already-checked-out"
                    "Esta pessoa já fez check-out."), st)) ∨
  (∃ p, st !! s = Some p ∧ present p ∧
        checkOut (VString s) now st =
          (Return checkOut_ok, <[s := apply_set (checkOut_set now) p]> st)).
Proof.
  intros Hv. destruct (st !! s) as [p|] eqn:Hp.
  - destruct (checkInDate p) as [cin|] eqn:Hin.
    + destruct (checkOutDate p) as [cout|] eqn:Hout.
      * right; right; left. exists p. split_and!; [done| |].
        { split; [rewrite Hin|rewrite Hout]; eauto. }
        unfold checkOut. rewrite checkOut_find_valid by done.
        unfold findOneAsync. rewrite Hp. unfold checkOut_update.
        by rewrite Hin, Hout.
      * right; right; right. exists p.
        assert (present p) as Hpres by (split; [rewrite Hin; eauto|done]).
        split_and!; [done..|]. by apply checkOut_present.
    + right; left. exists p. split_and!; [done..|].
      unfold checkOut. rewrite checkOut_find_valid by done.
      unfold findOneAsync. rewrite Hp. unfold checkOut_update. by rewrite Hin.
  - left. split; [done|]. unfold checkOut.
    rewrite checkOut_find_valid by done. unfold findOneAsync. by rewrite Hp.
Qed.

Lemma value_valid_or_not v :
  (∀ s, v = VString s → blank s = true) ∨ (∃ s, v = VString s ∧ valid_id s).
Proof.
  destruct v as [| | | | |s| | |]; try (left; intros ?; discriminate).
  destruct (blank s) eqn:Hb; [left; by intros ? [= <-]|right; by exists s].
Qed.

(** X1. Both methods fail with [InvalidArgument] exactly on the arguments
    that are not a string or are a blank string (empty, or white space
    only), and then leave the store as it is. *)
Theorem methods_invalid_argument_iff v now st :
  (fails_with (checkIn v now st).1 InvalidArgument ↔
     ∀ s, v = VString s → blank s = true) ∧
  (fails_with (checkOut v now st).1 InvalidArgument ↔
     ∀ s, v = VString s → blank s = true) ∧
  ((∀ s, v = VString s → blank s = true) →
     (checkIn v now st).2 = st ∧ (checkOut v now st).2 = st).
Proof.
  split_and!.
  - split.
    + intros (e & He & Hk). destruct (value_valid_or_not v) as [|(s & -> & Hv)];
        [done|]. exfalso.
      destruct (checkIn_cases s now st Hv) as [[_ H]|(p & _ & H)];
        rewrite H in He; simpl in He; discriminate.
    + intros Hv. destruct (checkIn_invalid v now st Hv) as [reason ->].
      eexists; split; [reflexivity|done].
  - split.
    + intros (e & He & Hk). destruct (value_valid_or_not v) as [|(s & -> & Hv)];
        [done|]. exfalso.
      destruct (checkOut_cases s now st Hv)
        as [[_ H]|[(p & _ & _ & H)|[(p & _ & _ & H)|(p & _ & _ & H)]]];
        rewrite H in He; simpl in He; try discriminate;
        injection He as <-; discriminate Hk.
    + intros Hv. destruct (checkOut_invalid v now st Hv) as [reason ->].
      eexists; split; [reflexivity|done].
  - intros Hv.
    destruct (checkIn_invalid v now st Hv) as [r1 ->].
    by destruct (checkOut_invalid v now st Hv) as [r2 ->].
Qed.



(** X3. The two checks of [result.modifiedCount] are dead.  The update
    resolves to a number, whose [modifiedCount] is [undefined] and never
    [=== 0]: so [people.checkIn] never fails with 'person-not-found',
    whatever its argument and whatever the store holds, and no step of
    [people.checkOut], run alone or overlapping with other calls, fails
    with 'update-failed'. *)
Theorem modifiedCount_checks_never_fire v now st s found :
  (∀ n, strictly_zero (modifiedCount n) = false) ∧
  ¬ fails_with (checkIn v now st).1 NotFound ∧
  ¬ fails_with (checkOut v now st).1 ConcurrencyConflict ∧
  ¬ fails_with (checkOut_update s found now st).1 ConcurrencyConflict ∧
  (∀ e, (Interleaving.step now (Interleaving.Found s found) st).1 =
          Interleaving.Settled (Throw e) →
        failure_of e ≠ Some ConcurrencyConflict).
Proof.
  split_and!.
  - done.
  - intros (e & He & Hk).
    destruct (value_valid_or_not v) as [Hv|(s' & -> & Hv)].
    + destruct (checkIn_invalid v now st Hv) as [reason H].
      rewrite H in He. injection He as <-. discriminate Hk.
    + destruct (checkIn_cases s' now st Hv) as [[_ H]|(p & _ & H)];
        rewrite H in He; discriminate He.
  - unfold checkOut. destruct (checkOut_find v st) as [[s' found']|e] eqn:Hf.
    + apply checkOut_update_never_conflict.
    + intros (e' & [= <-] & Hk). unfold checkOut_find in Hf.
      destruct v as [| | | | |s'| | |]; try (injection Hf as <-; discriminate Hk).
      destruct (negb _); [injection Hf as <-; discriminate Hk|discriminate Hf].
  - apply checkOut_update_never_conflict.
  - simpl. pose proof (checkOut_update_never_conflict s found now st) as H.
    destruct (checkOut_update s found now st) as [r st']. simpl in *.
    intros e [= ->] Hk. apply H. by exists e.
Qed.

End MethodFacts.

Section MethodComposition.

Import Sample.
Implicit Types (st : store) (p : person) (s : jsstring) (now : Z) (v : value).

(** X4. [people.checkOut], run without interruption, returns exactly for
    a valid identifier whose document is present; it then sets
    [checkOutDate] to the clock reading of the call and changes nothing
    else, in that document or in the others. *)
Theorem checkOut_returns_iff_present v now st :
  (succeeds (checkOut v now st).1 ↔
     ∃ s p, v = VString s ∧ valid_id s ∧ st !! s = Some p ∧ present p) ∧
  (∀ r st', checkOut v now st = (Return r, st') →
     ∃ s p p', v = VString s ∧ st !! s = Some p ∧ st' !! s = Some p' ∧
       checkOutDate p' = Some now ∧ checkInDate p' = checkInDate p ∧
       same_identity p p' ∧ ∀ s', s' ≠ s → st' !! s' = st !! s').
Proof.
  split.
  - split.
    + intros [r Hr]. destruct (checkOut v now st) as [r' st'] eqn:Hrun.
      simpl in Hr. subst r'.
      destruct (checkOut_returns _ _ _ _ _ Hrun) as (s & p & -> & Hv & Hp & Hpres & _).
      by exists s, p.
    + intros (s & p & -> & Hv & Hp & Hpres).
      rewrite (checkOut_present s p) by done. by eexists.
  - intros r st' Hrun.
    destruct (checkOut_returns _ _ _ _ _ Hrun) as (s & p & -> & Hv & Hp & Hpres & _ & ->).
    exists s, p, (apply_set (checkOut_set now) p).
    split_and!; try done.
    + apply lookup_insert_eq.
    + intros s' Hne. by apply lookup_insert_ne.
Qed.

Lemma exec_touches_one o now st :
  (exec o now st).2 = st ∨
  ∃ s p m, st !! s = Some p ∧ (exec o now st).2 = <[s := apply_set m p]> st.
Proof.
  destruct o as [v|v]; simpl.
  - destruct (checkIn_store v now st) as [->|(s & p & Hp & ->)]; [by left|].
    right. by exists s, p, (checkIn_set now).
  - destruct (checkOut_store v now st) as [->|(s & p & Hp & _ & ->)]; [by left|].
    right. by exists s, p, (checkOut_set now).
Qed.

Lemma same_identity_refl p : same_identity p p.
Proof. by repeat split. Qed.

Lemma same_identity_trans p1 p2 p3 :
  same_identity p1 p2 → same_identity p2 p3 → same_identity p1 p3.
Proof.
  intros (?&?&?&?&?&?) (?&?&?&?&?&?). repeat split; congruence.
Qed.

Lemma same_identity_apply_set m p : same_identity p (apply_set m p).
Proof. by repeat split. Qed.

Lemma exec_keeps_identity o now st s :
  ((exec o now st).2 !! s = None ↔ st !! s = None) ∧
  ∀ p', (exec o now st).2 !! s = Some p' →
        ∃ p, st !! s = Some p ∧ same_identity p p'.
Proof.
  destruct (exec_touches_one o now st) as [->|(s0 & p0 & m & Hp0 & ->)].
  - split; [done|]. intros p' Hp'. exists p'. split; [done|].
    apply same_identity_refl.
  - rewrite lookup_insert. case_decide as Heq.
    + subst s0. split; [split; intros; congruence|].
      intros p' [= <-]. exists p0. split; [done|]. apply same_identity_apply_set.
    + split; [done|]. intros p' Hp'. exists p'. split; [done|].
      apply same_identity_refl.
Qed.

Lemma operations_keep_documents_and_identity_aux ops st s :
  (run_ops ops st !! s = None ↔ st !! s = None) ∧
  ∀ p', run_ops ops st !! s = Some p' →
        ∃ p, st !! s = Some p ∧ same_identity p p'.
Proof.
  revert st. induction ops as [|[now o] ops IH]; intros st.
  - split; [done|]. intros p' Hp'. exists p'. split; [done|].
    apply same_identity_refl.
  - simpl. destruct (IH (exec o now st).2) as [IH1 IH2].
    destruct (exec_keeps_identity o now st s) as [H1 H2].
    split; [by rewrite IH1|].
    intros p' Hp'. destruct (IH2 p' Hp') as (p1 & Hp1 & Hid1).
    destruct (H2 p1 Hp1) as (p & Hp & Hid). exists p. split; [done|].
    by apply (same_identity_trans p p1 p').
Qed.

(** X5. The methods create and delete no document and touch dates only:
    after any sequence of [people.checkIn] and [people.checkOut] calls the
    store holds documents for the same identifiers as before, each with
    its [_id], [communityId], [firstName], [lastName], [companyName] and
    [title] unchanged. *)
Theorem operations_keep_documents_and_identity ops st :
  dom (run_ops ops st) = dom st ∧
  ∀ s p', run_ops ops st !! s = Some p' →
          ∃ p, st !! s = Some p ∧ same_identity p p'.
Proof.
  split.
  - apply set_eq. intros s. rewrite !elem_of_dom.
    destruct (operations_keep_documents_and_identity_aux ops st s) as [Hnone _].
    rewrite <- !not_eq_None_Some. by rewrite Hnone.
  - intros s.
    by destruct (operations_keep_documents_and_identity_aux ops st s) as [_ H].
Qed.

(** X6. A whole stay.  For a person whose document exists, under a
    valid identifier, [people.checkIn] returns and a following
    [people.checkOut] returns, whatever the clock readings; the document
    then holds the clock reading of the check-in as [checkInDate] and
    that of the check-out as [checkOutDate], so its dates are in order
    exactly when the clock did not go back between the two calls.  For an
    identifier without document [people.checkIn] returns as well, but
    writes nothing, and the following [people.checkOut] fails with
    'person-not-found'. *)
Theorem checkIn_then_checkOut_stay s now now' st :
  valid_id s →
  (∀ p, st !! s = Some p →
     ∃ st1 st2 p2,
       checkIn (VString s) now st = (Return checkIn_ok, st1) ∧
       checkOut (VString s) now' st1 = (Return checkOut_ok, st2) ∧
       st2 !! s = Some p2 ∧ same_identity p p2 ∧
       checkInDate p2 = Some now ∧ checkOutDate p2 = Some now' ∧
       (ordered p2 ↔ now ≤ now')) ∧
  (st !! s = None →
     checkIn (VString s) now st = (Return checkIn_ok, st) ∧
     fails_with (checkOut (VString s) now' st).1 NotFound).
Proof.
  intros Hv. split.
  - intros p Hp.
    set (p1 := apply_set (checkIn_set now) p).
    assert (present p1) as Hpres by (split; [simpl; eauto|done]).
    exists (<[s := p1]> st),
           (<[s := apply_set (checkOut_set now') p1]> (<[s := p1]> st)),
           (apply_set (checkOut_set now') p1).
    split_and!; try done.
    + by apply checkIn_present.
    + apply checkOut_present; [done|apply lookup_insert_eq|done].
    + apply lookup_insert_eq.
    + split.
      * intros Hord. destruct (Hord now' eq_refl) as (cin & [= <-] & Hle). done.
      * intros Hle out [= <-]. by exists now.
  - intros Hnone. split; [by apply checkIn_absent|].
    unfold checkOut. rewrite checkOut_find_valid by done.
    unfold findOneAsync. rewrite Hnone. simpl.
    eexists; split; [reflexivity|done].
Qed.

Lemma checkIn_then_checkOut_stay_witness :
  valid_id (str "P1") ∧
  ∃ st1 st2 p2,
    checkIn (VString (str "P1")) 1000 provisioned = (Return checkIn_ok, st1) ∧
    checkOut (VString (str "P1")) 2000 st1 = (Return checkOut_ok, st2) ∧
    st2 !! str "P1" = Some p2 ∧
    checkInDate p2 = Some 1000 ∧ checkOutDate p2 = Some 2000.
Proof.
  assert (valid_id (str "P1")) as Hv by reflexivity.
  split; [exact Hv|].
  destruct (proj1 (checkIn_then_checkOut_stay (str "P1") 1000 2000 provisioned Hv)
              ana eq_refl)
    as (st1 & st2 & p2 & H1 & H2 & H3 & _ & H4 & H5 & _).
  exists st1, st2, p2. split_and!; assumption.
Defined.

End MethodComposition.

(** ** Calls of [people.checkOut] under any schedule *)

Section Schedules.

Import Interleaving Sample.
Implicit Types (st : store) (p q : person) (s : jsstring) (now : Z).
Implicit Types (c : call) (calls : list call).

Lemma step_has_effect now c st : step_effect now c st (step now c st).
Proof.
  destruct c as [v|s found|r]; simpl.
  - destruct v as [| | | | |s| | |]; try by eapply effect_invalid.
    unfold checkOut_find. rewrite not_trim_blank.
    destruct (blank s); [by eapply effect_invalid|by apply effect_read].
  - destruct found as [q|]; [|by eapply effect_fail].
    unfold checkOut_update.
    destruct (checkInDate q) as [cin|] eqn:Hin; simpl;
      [|by eapply effect_fail].
    destruct (checkOutDate q) as [cout|] eqn:Hout; simpl;
      [by eapply effect_fail|].
    fold (checkOut_set now). unfold updateAsync.
    assert (present q) as Hq by (split; [rewrite Hin; eauto|done]).
    destruct (st !! s) as [p|] eqn:Hp; simpl.
    + by eapply effect_write.
    + by eapply effect_gone.
  - by eapply effect_settled.
Qed.

Lemma insert_lookup_cases calls j c' i c :
  (<[j := c']> calls) !! i = Some c →
  (i = j ∧ c = c') ∨ (i ≠ j ∧ calls !! i = Some c).
Proof.
  intros H. apply list_lookup_insert_Some in H as [(-> & -> & _)|[Hne H]];
    [by left|right; by split].
Qed.

(** What every step keeps true, whatever the schedule. *)
Lemma step_keeps calls0 calls st t j now c :
  calls !! j = Some c → t ≤ now →
  follows calls0 calls → reads_agree calls st →
  returned_departed calls0 calls st →
  store_ordered st → checked_in_by t st →
  let calls' := <[j := (step now c st).1]> calls in
  let st' := (step now c st).2 in
  follows calls0 calls' ∧ reads_agree calls' st' ∧
  returned_departed calls0 calls' st' ∧
  store_ordered st' ∧ checked_in_by now st'.
Proof.
  intros Hj Hle Hfol Hread Hret Hord Hby. simpl.
  assert (checked_in_by now st) as Hby'.
  { intros s p d Hp Hd. specialize (Hby s p d Hp Hd). lia. }
  destruct (step_has_effect now c st) as
    [r ->|s ->|s found e ->|v e ->|s q p r -> Hq Hp|s q r -> Hq Hp]; simpl.
  - rewrite list_insert_id by done. done.
  - split_and!; try done.
    + intros i c Hi. apply insert_lookup_cases in Hi as [[-> ->]|[_ Hi]];
        [|by apply Hfol]. apply (Hfol j _ Hj).
    + intros i s' q Hi Hq.
      apply insert_lookup_cases in Hi as [[-> [= <- Hf]]|[_ Hi]];
        [|by apply (Hread i)]. exists q. by rewrite Hf.
    + intros i r Hi. apply insert_lookup_cases in Hi as [[_ ?]|[_ Hi]];
        [done|by apply (Hret i r)].
  - split_and!; try done.
    + intros i c' Hi. apply insert_lookup_cases in Hi as [[-> ->]|[_ Hi]];
        [done|by apply Hfol].
    + intros i s' q Hi Hq. apply insert_lookup_cases in Hi as [[_ ?]|[_ Hi]];
        [done|by apply (Hread i)].
    + intros i r Hi. apply insert_lookup_cases in Hi as [[_ ?]|[_ Hi]];
        [done|by apply (Hret i r)].
  - split_and!; try done.
    + intros i c' Hi. apply insert_lookup_cases in Hi as [[-> ->]|[_ Hi]];
        [done|by apply Hfol].
    + intros i s' q Hi Hq. apply insert_lookup_cases in Hi as [[_ ?]|[_ Hi]];
        [done|by apply (Hread i)].
    + intros i r Hi. apply insert_lookup_cases in Hi as [[_ ?]|[_ Hi]];
        [done|by apply (Hret i r)].
  - destruct Hq as [[cin Hin] Hout].
    destruct (Hread j s q Hj) as (p0 & Hp0 & Hcin); [rewrite Hin; eauto|].
    assert (p0 = p) as -> by congruence. rewrite Hin in Hcin.
    split_and!.
    + intros i c' Hi. apply insert_lookup_cases in Hi as [[-> ->]|[_ Hi]];
        [done|by apply Hfol].
    + intros i s' q' Hi Hq'. apply insert_lookup_cases in Hi as [[_ ?]|[_ Hi]];
        [done|]. destruct (Hread i s' q' Hi Hq') as (p' & Hp' & Hc').
      rewrite lookup_insert. case_decide as Heq; [|by exists p'].
      subst s'. assert (p' = p) as -> by congruence.
      by exists (apply_set (checkOut_set now) p).
    + intros i r' Hi. apply insert_lookup_cases in Hi as [[-> _]|[_ Hi]].
      * exists s, (apply_set (checkOut_set now) p).
        split_and!; [apply (Hfol j _ Hj)|apply lookup_insert_eq|].
        split; simpl; [rewrite Hcin|]; eauto.
      * destruct (Hret i r' Hi) as (s' & p' & Hc0 & Hp' & [Hi' Ho']).
        exists s'. rewrite lookup_insert. case_decide as Heq.
        -- subst s'. assert (p' = p) as -> by congruence.
           exists (apply_set (checkOut_set now) p).
           split_and!; [done..|]. split; simpl; eauto.
        -- exists p'. by split_and!.
    + intros s' p'. rewrite lookup_insert. case_decide; [|by apply Hord].
      intros [= <-] out. simpl. intros [= <-]. exists cin. split; [done|].
      specialize (Hby s p cin Hp Hcin). lia.
    + intros s' p' d. rewrite lookup_insert. case_decide; [|by apply Hby'].
      intros [= <-]. simpl. intros Hd. by apply (Hby' s p d).
  - exfalso. destruct (Hread j s q Hj) as (p0 & Hp0 & _); [apply Hq|].
    congruence.
Qed.

Lemma run_keeps calls0 sched : ∀ calls st t,
  nondecreasing t sched.*2 →
  follows calls0 calls → reads_agree calls st →
  returned_departed calls0 calls st →
  store_ordered st → checked_in_by t st →
  returned_departed calls0 (run sched calls st).1 (run sched calls st).2 ∧
  store_ordered (run sched calls st).2.
Proof.
  induction sched as [|[j now] sched IH];
    intros calls st t Hmono Hfol Hread Hret Hord Hby; [done|].
  simpl in Hmono. destruct Hmono as [Hle Hmono]. simpl.
  destruct (calls !! j) as [c|] eqn:Hj.
  - destruct (step_keeps calls0 calls st t j now c Hj Hle Hfol Hread Hret Hord Hby)
      as (H1 & H2 & H3 & H4 & H5).
    destruct (step now c st) as [c' st']. by apply (IH _ _ now).
  - apply (IH calls st now); try done.
    intros s p d Hp Hd. specialize (Hby s p d Hp Hd). lia.
Qed.

Lemma not_started_initial calls st :
  not_started calls →
  follows calls calls ∧ reads_agree calls st ∧ returned_departed calls calls st.
Proof.
  intros Hns. split_and!.
  - intros i c Hi. by destruct (Hns i c Hi) as [v ->].
  - intros i s q Hi. by destruct (Hns i _ Hi) as [v ?].
  - intros i r Hi. by destruct (Hns i _ Hi) as [v ?].
Qed.

(** X7. Overlap does not disturb the order of the dates.  Let the store
    have its dates in order and the clock never go back.  Then after any
    schedule of any number of [people.checkOut] calls, however their reads
    and writes interleave, every document still has a check-out date only
    with a check-in date that is not later. *)
Theorem overlapping_checkOuts_keep_dates_ordered sched calls st t0 :
  not_started calls → store_ordered st → checked_in_by t0 st →
  nondecreasing t0 sched.*2 →
  store_ordered (run sched calls st).2.
Proof.
  intros Hns Hord Hby Hmono.
  destruct (not_started_initial calls st Hns) as (H1 & H2 & H3).
  by apply (run_keeps calls sched calls st t0).
Qed.

(** X8. A call that returned did check the person out.  After any
    schedule of [people.checkOut] calls, with the clock never going back,
    every call that has returned was made with a string identifier, and
    the person of that identifier is departed in the final store: checked
    in and checked out. *)
Theorem returned_checkOut_leaves_departed sched calls st t0 i r :
  not_started calls → store_ordered st → checked_in_by t0 st →
  nondecreasing t0 sched.*2 →
  (run sched calls st).1 !! i = Some (Settled (Return r)) →
  ∃ s p, calls !! i = Some (Called (VString s)) ∧
         (run sched calls st).2 !! s = Some p ∧ departed p.
Proof.
  intros Hns Hord Hby Hmono Hi.
  destruct (not_started_initial calls st Hns) as (H1 & H2 & H3).
  destruct (run_keeps calls sched calls st t0 Hmono H1 H2 H3 Hord Hby) as [Hret _].
  by apply (Hret i r).
Qed.

End Schedules.

Section SchedulesMore.

Import Interleaving Sample.
Implicit Types (st : store) (p q : person) (s : jsstring) (now : Z).
Implicit Types (c : call) (calls : list call).

Lemma ana_present_lookup s p :
  ana_present !! s = Some p →
  p = with_dates ana (Some 1000) None ∨ p = bob.
Proof.
  unfold ana_present. rewrite lookup_insert. case_decide.
  - intros [= <-]. by left.
  - rewrite lookup_singleton. case_decide; [|done]. intros [= <-]. by right.
Qed.

Lemma ana_present_ordered : store_ordered ana_present.
Proof.
  intros s p Hp out.
  destruct (ana_present_lookup s p Hp) as [-> | ->]; discriminate.
Qed.

Lemma ana_present_checked_in_by : checked_in_by 1000 ana_present.
Proof.
  intros s p d Hp.
  destruct (ana_present_lookup s p Hp) as [-> | ->]; [|discriminate].
  simpl. intros [= <-]. lia.
Qed.

Lemma two_calls_not_started : not_started two_calls.
Proof.
  intros i c Hi. destruct i as [|[|i]]; simpl in Hi;
    [injection Hi as <-; by eexists..|discriminate].
Qed.

Lemma overlapping_checkOuts_keep_dates_ordered_witness :
  not_started two_calls ∧ store_ordered ana_present ∧
  checked_in_by 1000 ana_present ∧
  nondecreasing 1000 reads_then_writes.*2 ∧
  store_ordered (run reads_then_writes two_calls ana_present).2.
Proof.
  assert (nondecreasing 1000 reads_then_writes.*2) as Hmono by (simpl; lia).
  split_and!;
    [exact two_calls_not_started|exact ana_present_ordered|
     exact ana_present_checked_in_by|exact Hmono|].
  exact (overlapping_checkOuts_keep_dates_ordered reads_then_writes two_calls
           ana_present 1000 two_calls_not_started ana_present_ordered
           ana_present_checked_in_by Hmono).
Defined.

Lemma returned_checkOut_leaves_departed_witness :
  (run reads_then_writes two_calls ana_present).1 !! 1%nat =
    Some (Settled (Return checkOut_ok)) ∧
  ∃ s p, two_calls !! 1%nat = Some (Called (VString s)) ∧
         (run reads_then_writes two_calls ana_present).2 !! s = Some p ∧
         departed p.
Proof.
  assert (nondecreasing 1000 reads_then_writes.*2) as Hmono by (simpl; lia).
  assert ((run reads_then_writes two_calls ana_present).1 !! 1%nat =
            Some (Settled (Return checkOut_ok))) as Hi by (vm_compute; reflexivity).
  split; [exact Hi|].
  exact (returned_checkOut_leaves_departed reads_then_writes two_calls
           ana_present 1000 1 checkOut_ok two_calls_not_started
           ana_present_ordered ana_present_checked_in_by Hmono Hi).
Defined.

Lemma step_keeps_identity now c st s :
  ((step now c st).2 !! s = None ↔ st !! s = None) ∧
  ∀ p', (step now c st).2 !! s = Some p' →
        ∃ p, st !! s = Some p ∧ same_identity p p' ∧
             checkInDate p' = checkInDate p.
Proof.
  assert (∀ st0, (st0 !! s = None ↔ st0 !! s = None) ∧
            ∀ p', st0 !! s = Some p' →
                  ∃ p, st0 !! s = Some p ∧ same_identity p p' ∧
                       checkInDate p' = checkInDate p) as Hsame.
  { intros st0. split; [done|]. intros p' Hp'. exists p'.
    split_and!; [done|apply same_identity_refl|done]. }
  destruct (step_has_effect now c st) as
    [r ->|s0 ->|s0 found e ->|v e ->|s0 q p r -> Hq Hp|s0 q r -> Hq Hp];
    simpl; try apply Hsame.
  rewrite lookup_insert. case_decide as Heq; [|apply Hsame].
  subst s0. split; [split; intros; congruence|].
  intros p' [= <-]. exists p.
  split_and!; [done|apply same_identity_apply_set|done].
Qed.

(** X9. Calls of [people.checkOut], however they overlap, write
    check-out dates only.  After any schedule of any calls the store
    holds documents for the same identifiers as before, each with its
    [checkInDate], [_id], [communityId], names, company and title
    unchanged. *)
Theorem overlapping_checkOuts_write_checkOutDate_only sched calls st s :
  ((run sched calls st).2 !! s = None ↔ st !! s = None) ∧
  ∀ p', (run sched calls st).2 !! s = Some p' →
        ∃ p, st !! s = Some p ∧ same_identity p p' ∧
             checkInDate p' = checkInDate p.
Proof.
  revert calls st. induction sched as [|[j now] sched IH]; intros calls st.
  - split; [done|]. intros p' Hp'. exists p'.
    split_and!; [done|apply same_identity_refl|done].
  - simpl. destruct (calls !! j) as [c|]; [|apply IH].
    destruct (step_keeps_identity now c st s) as [H1 H2].
    destruct (step now c st) as [c' st']. simpl in *.
    destruct (IH (<[j := c']> calls) st') as [IH1 IH2].
    split; [by rewrite IH1|].
    intros p' Hp'. destruct (IH2 p' Hp') as (p1 & Hp1 & Hid1 & Hin1).
    destruct (H2 p1 Hp1) as (p & Hp & Hid & Hin). exists p.
    split_and!; [done| |congruence].
    by apply (same_identity_trans p p1 p').
Qed.

Lemma in_turn_S clock k n :
  in_turn clock k (S n) = (k, clock k) :: (k, clock k) :: in_turn clock (S k) n.
Proof. done. Qed.

(** Calls made in turn for a departed person all fail the same way and
    write nothing. *)
Lemma run_in_turn_departed clock s p st n : ∀ k pre,
  valid_id s → st !! s = Some p → departed p → length pre = k →
  run (in_turn clock k n) (pre ++ replicate n (Called (VString s))) st =
    (pre ++ replicate n
       (Settled (Throw (MeteorError "already-checked-out"
                          "Esta pessoa já fez check-out."))), st).
Proof.
  induction n as [|n IH]; intros k pre Hv Hp [[cin Hin] [cout Hout]] <-;
    [done|].
  rewrite in_turn_S. cbn [replicate].
  rewrite (run_cons _ _ _ _ _ _ (lookup_middle _ _ _)).
  rewrite step_called_valid by done. cbn [fst snd].
  rewrite insert_middle, <- app_assoc. cbn [app].
  rewrite (run_cons _ _ _ _ _ _ (lookup_middle _ _ _)).
  assert (step (clock (length pre)) (Found s (st !! s)) st =
            (Settled (Throw (MeteorError "already-checked-out"
                               "Esta pessoa já fez check-out.")), st)) as ->.
  { unfold step, checkOut_update. by rewrite Hp, Hin, Hout. }
  cbn [fst snd]. rewrite insert_middle.
  rewrite (IH (S (length pre)));
    [by rewrite <- app_assoc|done|done|by split; eauto|].
  rewrite length_app. simpl. lia.
Qed.

Lemma no_success_among_throws n e :
  length (List.filter returned_ok (replicate n (Settled (Throw e)))) = 0%nat.
Proof. induction n as [|n IH]; [done|]. simpl. exact IH. Qed.

(** X10. Calls that do not overlap behave as one would have it.  When
    any number of [people.checkOut] calls for one present person run one
    after the other, the first returns and each of the others fails with
    ['already-checked-out']; the stored check-out date is the clock
    reading of the first call. *)
Theorem checkOuts_in_turn_first_only clock s p st n :
  valid_id s → st !! s = Some p → present p →
  run (in_turn clock 0 (S n)) (replicate (S n) (Called (VString s))) st =
    (Settled (Return checkOut_ok) ::
     replicate n
       (Settled (Throw (MeteorError "already-checked-out"
                          "Esta pessoa já fez check-out."))),
     <[s := apply_set (checkOut_set (clock 0%nat)) p]> st) ∧
  successes (run (in_turn clock 0 (S n))
               (replicate (S n) (Called (VString s))) st).1 = 1%nat.
Proof.
  intros Hv Hp Hpres.
  assert (run (in_turn clock 0 (S n)) (replicate (S n) (Called (VString s))) st =
    (Settled (Return checkOut_ok) ::
     replicate n
       (Settled (Throw (MeteorError "already-checked-out"
                          "Esta pessoa já fez check-out."))),
     <[s := apply_set (checkOut_set (clock 0%nat)) p]> st)) as Hrun.
  { rewrite in_turn_S. cbn [replicate].
    rewrite (run_cons _ _ _ _ _ (Called (VString s))) by done.
    rewrite step_called_valid by done. cbn [fst snd]. simpl insert.
    rewrite (run_cons _ _ _ _ _ (Found s (st !! s))) by done.
    assert (step (clock 0%nat) (Found s (st !! s)) st =
              (Settled (Return checkOut_ok),
               <[s := apply_set (checkOut_set (clock 0%nat)) p]> st)) as ->.
    { unfold step. rewrite Hp.
      by rewrite (checkOut_update_stale s p p). }
    cbn [fst snd]. simpl insert.
    apply (run_in_turn_departed clock s (apply_set (checkOut_set (clock 0%nat)) p)
             _ n 1 [Settled (Return checkOut_ok)]); try done.
    - apply lookup_insert_eq.
    - destruct Hpres as [Hin _]. split; simpl; eauto. }
  split; [exact Hrun|]. rewrite Hrun. simpl.
  unfold successes. simpl. f_equal. apply no_success_among_throws.
Qed.

Lemma checkOuts_in_turn_first_only_witness :
  valid_id (str "P1") ∧
  successes (run (in_turn (λ i, 2000 + Z.of_nat i) 0 3)
               (replicate 3 (Called (VString (str "P1")))) ana_present).1 = 1%nat.
Proof.
  assert (valid_id (str "P1")) as Hv by reflexivity.
  split; [exact Hv|].
  exact (proj2 (checkOuts_in_turn_first_only (λ i, 2000 + Z.of_nat i) (str "P1")
                  (with_dates ana (Some 1000) None) ana_present 2 Hv eq_refl
                  (conj (ex_intro _ 1000 eq_refl) eq_refl))).
Defined.

Lemma checkOut_overlap_any_number_witness :
  valid_id (str "P1") ∧
  ∃ st' p',
    run (round (λ _, 1500) 0 3 ++ round (λ i, 2000 + Z.of_nat i) 0 3)
        (replicate 3 (Called (VString (str "P1")))) ana_present =
      (replicate 3 (Settled (Return checkOut_ok)), st') ∧
    st' !! str "P1" = Some p' ∧ checkOutDate p' = Some 2002.
Proof.
  assert (valid_id (str "P1")) as Hv by reflexivity.
  split; [exact Hv|].
  assert (2 ≤ 3)%nat as Hn by lia.
  assert (∀ d, checkOutDate (with_dates ana (Some 1000) None) = Some d →
               d < 2000 + Z.of_nat 0) as Hlt by (intros d Hd; discriminate Hd).
  assert (∀ i, 2000 + Z.of_nat i < 2000 + Z.of_nat (S i)) as Hclock
    by (intros i; lia).
  destruct (checkOut_overlap_any_number 3 (str "P1")
              (with_dates ana (Some 1000) None) ana_present 1500
              (λ i, 2000 + Z.of_nat i) Hn Hv eq_refl
              (conj (ex_intro _ 1000 eq_refl) eq_refl) Hlt Hclock)
    as (st' & p' & Hrun & _ & Hp' & Hd).
  exists st', p'. split_and!; [exact Hrun|exact Hp'|exact Hd].
Defined.

End SchedulesMore.

(** ** More on the publication *)

Section PublicationFacts.

Import Publications Sample.
Implicit Types (st : store) (p : person) (s : jsstring) (v : value).

Lemma subscribe_invalid v st :
  (∀ s, v = VString s → blank s = true) →
  (toString_throws v = false →
     subscribe people_function v st =
       {| ready := true; documents := ∅; scans := 0; error := None |}) ∧
  subscribe people_arrow v st =
    {| ready := true; documents := ∅; scans := 0; error := None |}.
Proof.
  intros Hv. apply people_invalid_filter.
  destruct v as [| | | | |s| | |]; try done. by apply Hv.
Qed.

Lemma subscribe_throws v st :
  toString_throws v = true →
  subscribe people_function v st =
    {| ready := false; documents := ∅; scans := 0;
       error := Some (JsError "Cannot convert object to primitive value") |}.
Proof. intros H. unfold subscribe, people_function. by rewrite H. Qed.

Lemma subscribe_valid s st :
  valid_id s →
  subscribe people_function (VString s) st =
    {| ready := true; documents := find s st; scans := 1; error := None |} ∧
  subscribe people_arrow (VString s) st =
    {| ready := true; documents := find s st; scans := 1; error := None |}.
Proof.
  intros Hv. unfold subscribe.
  by rewrite people_function_valid, people_arrow_valid.
Qed.

(** X11. The two variants of the publication [people] differ in one
    respect only.  For every argument whose conversion to a string does
    not throw, and every store, they give the subscriber the same
    readiness, the same documents, the same number of cursors run and no
    error.  For an argument whose conversion throws (an object with an
    own property [toString], an array holding one), the variant that logs
    ends the subscription with an error while the variant that returns
    [[]] gives the ready, empty subscription; so the two agree exactly on
    the arguments that convert. *)
Theorem people_variants_agree v st :
  (toString_throws v = false →
     subscribe people_function v st = subscribe people_arrow v st ∧
     error (subscribe people_function v st) = None) ∧
  (toString_throws v = true →
     subscribe people_function v st =
       {| ready := false; documents := ∅; scans := 0;
          error := Some (JsError "Cannot convert object to primitive value") |} ∧
     subscribe people_arrow v st =
       {| ready := true; documents := ∅; scans := 0; error := None |}) ∧
  (subscribe people_function v st = subscribe people_arrow v st ↔
     toString_throws v = false).
Proof.
  assert (toString_throws v = false →
          subscribe people_function v st = subscribe people_arrow v st ∧
          error (subscribe people_function v st) = None) as Hsame.
  { intros Hts. destruct (value_valid_or_not v) as [Hv|(s & -> & Hv)].
    - destruct (subscribe_invalid v st Hv) as [H1 ->]. by rewrite (H1 Hts).
    - destruct (subscribe_valid s st Hv) as [-> ->]. done. }
  assert (toString_throws v = true →
          subscribe people_function v st =
            {| ready := false; documents := ∅; scans := 0;
               error := Some (JsError "Cannot convert object to primitive value") |} ∧
          subscribe people_arrow v st =
            {| ready := true; documents := ∅; scans := 0; error := None |}) as Hdiff.
  { intros Hts. split; [by apply subscribe_throws|].
    apply subscribe_invalid. intros s ->. discriminate Hts. }
  split_and!; [exact Hsame|exact Hdiff|].
  split.
  - intros Heq. destruct (toString_throws v) eqn:Hts; [|done].
    destruct (Hdiff eq_refl) as [H1 H2]. rewrite H1, H2 in Heq.
    discriminate Heq.
  - intros Hts. by apply Hsame.
Qed.

Lemma subscribe_documents v st id p :
  documents (subscribe people_function v st) !! id = Some p ↔
  st !! id = Some p ∧ v = VString (communityId p) ∧ valid_id (communityId p).
Proof.
  destruct (toString_throws v) eqn:Hts.
  { rewrite subscribe_throws by done. simpl. rewrite lookup_empty.
    split; [done|]. intros (_ & -> & _). discriminate Hts. }
  destruct (value_valid_or_not v) as [Hv|(s & -> & Hv)].
  - destruct (subscribe_invalid v st Hv) as [H1 _]. rewrite (H1 Hts). simpl.
    rewrite lookup_empty. split; [done|].
    intros (_ & -> & Hvalid). specialize (Hv _ eq_refl).
    unfold valid_id in Hvalid. congruence.
  - destruct (subscribe_valid s st Hv) as [-> _]. simpl.
    rewrite find_lookup. split.
    + intros [Hp <-]. done.
    + intros (Hp & [= ->] & _). done.
Qed.

(** X12. Communities are kept apart.  Whatever the argument, a document
    is delivered only under the argument that is its own [communityId],
    and only if that is not blank; so no document is delivered under two
    different arguments, and a document whose [communityId] is blank is
    delivered to nobody. *)
Theorem people_subscriptions_isolated v v' st id p p' :
  (documents (subscribe people_function v st) !! id = Some p →
     st !! id = Some p ∧ v = VString (communityId p) ∧
     blank (communityId p) = false) ∧
  (documents (subscribe people_function v st) !! id = Some p →
   documents (subscribe people_function v' st) !! id = Some p' →
     v = v' ∧ p = p') ∧
  (st !! id = Some p → blank (communityId p) = true →
     documents (subscribe people_function v st) !! id = None).
Proof.
  split_and!.
  - intros H. by apply subscribe_documents in H.
  - intros H H'. apply subscribe_documents in H as (Hp & -> & _).
    apply subscribe_documents in H' as (Hp' & -> & _).
    assert (p' = p) as -> by congruence. done.
  - intros Hp Hb.
    destruct (documents _ !! id) as [q|] eqn:Hq; [|done].
    apply subscribe_documents in Hq as (Hq & _ & Hvalid).
    assert (q = p) as -> by congruence.
    unfold valid_id in Hvalid. congruence.
Qed.

(** X13. Check-ins and check-outs move nobody between subscriptions.
    After any sequence of [people.checkIn] and [people.checkOut] calls, a
    subscription to [people] delivers documents for the same identifiers
    as it would have before, and what it delivers for an identifier is the
    document as the store now holds it. *)
Theorem people_subscription_follows_operations ops v st id :
  (is_Some (documents (subscribe people_function v (run_ops ops st)) !! id) ↔
   is_Some (documents (subscribe people_function v st) !! id)) ∧
  (∀ p', documents (subscribe people_function v (run_ops ops st)) !! id = Some p' →
         run_ops ops st !! id = Some p').
Proof.
  destruct (operations_keep_documents_and_identity_aux ops st id) as [Hnone Hsome].
  split.
  - split; intros [q Hq]; apply subscribe_documents in Hq as (Hq & -> & Hvalid).
    + destruct (Hsome q Hq) as (p & Hp & Hid).
      exists p. apply subscribe_documents.
      destruct Hid as (_ & Hc & _). rewrite Hc. done.
    + destruct (run_ops ops st !! id) as [p'|] eqn:Hp'.
      * destruct (Hsome p' eq_refl) as (p & Hp & Hid).
        assert (p = q) as -> by congruence.
        exists p'. apply subscribe_documents.
        destruct Hid as (_ & Hc & _). rewrite <- Hc. done.
      * assert (st !! id = None) as Hn by (by apply Hnone). congruence.
  - intros p' Hp'. by apply subscribe_documents in Hp' as (Hp' & _).
Qed.

End PublicationFacts.

(** ** More on the action button *)

Section ButtonFacts.

Import PeopleList Clicks Sample.
Implicit Types (st : store) (p : person) (now : Z).

Lemma seconds_lt_5 cin now :
  (getTimeDifferenceInSeconds (Some cin) now <? 5) = true ↔ now - cin < 5000.
Proof.
  unfold getTimeDifferenceInSeconds. rewrite Z.ltb_lt. split.
  - intros H. destruct (Z_lt_ge_dec (now - cin) 5000) as [|Hge]; [done|].
    assert (5 ≤ (now - cin) / 1000) by (apply Z.div_le_lower_bound; lia). lia.
  - intros H. apply Z.div_lt_upper_bound; lia.
Qed.

(** The element [renderActionButton] gives, case by case. *)
Lemma renderActionButton_cases p now :
  (checkInDate p = None ∧
   renderActionButton p now =
     button false (Some (handleCheckIn (_id p)))
       [Text (str "Check-in "); Text (firstName p ++ str " " ++ lastName p)]) ∨
  (∃ cin, checkInDate p = Some cin ∧ checkOutDate p = None ∧
          now - cin < 5000 ∧
          renderActionButton p now =
            button true None
              [Text (str "Aguarde... (");
               Num (5 - getTimeDifferenceInSeconds (Some cin) now);
               Text (str "s)")]) ∨
  (∃ cin, checkInDate p = Some cin ∧ checkOutDate p = None ∧
          5000 ≤ now - cin ∧
          renderActionButton p now =
            button false (Some (handleCheckOut (_id p)))
              [Text (str "Check-out ");
               Text (firstName p ++ str " " ++ lastName p)]) ∨
  (departed p ∧
   renderActionButton p now = span [Text (str "Check-out realizado")]).
Proof.
  unfold renderActionButton.
  destruct (checkInDate p) as [cin|] eqn:Hin; [|by left].
  destruct (checkOutDate p) as [cout|] eqn:Hout.
  { right; right; right. split; [|done]. split; eauto. }
  change (bool_decide (is_Some (Some cin))) with true.
  change (bool_decide (is_Some (@None Z))) with false.
  cbn [negb andb].
  destruct (getTimeDifferenceInSeconds (Some cin) now <? 5) eqn:Hlt.
  - right; left. exists cin. apply seconds_lt_5 in Hlt. done.
  - right; right; left. exists cin. split_and!; [done..| |done].
    destruct (Z_lt_ge_dec (now - cin) 5000) as [H|H]; [|lia].
    apply seconds_lt_5 in H. congruence.
Qed.

(** X14. What the action button lets the user call.  The button calls
    [people.checkIn], for the person shown, exactly when that person has
    no check-in date; it calls [people.checkOut], for the person shown,
    exactly when the person is present and at least 5 seconds have gone
    by since the check-in; for a departed person there is no button.  So
    the list never offers to check in again someone who has a check-in
    date. *)
Theorem renderActionButton_offers p now id :
  (onClick_of (renderActionButton p now) = Some (handleCheckIn id) ↔
     id = _id p ∧ checkInDate p = None) ∧
  (onClick_of (renderActionButton p now) = Some (handleCheckOut id) ↔
     id = _id p ∧ ∃ cin, checkInDate p = Some cin ∧ checkOutDate p = None ∧
                         5000 ≤ now - cin) ∧
  (departed p → renderActionButton p now = span [Text (str "Check-out realizado")]) ∧
  (is_Some (checkInDate p) →
     onClick_of (renderActionButton p now) ≠ Some (handleCheckIn id)).
Proof.
  destruct (renderActionButton_cases p now)
    as [[Hin ->]|[(cin & Hin & Hout & Hlt & ->)|
        [(cin & Hin & Hout & Hge & ->)|[[[cin Hin] [cout Hout]] ->]]]]; simpl.
  - split_and!.
    + split; [by intros [= <-]|by intros [-> _]].
    + split; [done|]. intros (_ & cin & ? & _). congruence.
    + intros [[cin ?] _]. congruence.
    + intros [cin ?]. congruence.
  - split_and!.
    + split; [done|]. intros [_ ?]. congruence.
    + split; [done|]. intros (_ & cin' & ? & _ & ?).
      assert (cin' = cin) as -> by congruence. lia.
    + intros [_ [cout ?]]. congruence.
    + done.
  - split_and!.
    + split; [done|]. intros [_ ?]. congruence.
    + split; [by intros [= <-]; eauto|by intros [-> _]].
    + intros [_ [cout ?]]. congruence.
    + done.
  - split_and!.
    + split; [done|]. intros [_ ?]. congruence.
    + split; [done|]. intros (_ & cin' & _ & ? & _). congruence.
    + done.
    + done.
Qed.

End ButtonFacts.

(** ** Clicks *)

Section ClickFacts.

Import PeopleList Clicks Sample.
Implicit Types (st : store) (p q : person) (now : Z).

Lemma click_checkIn id now st :
  click (handleCheckIn id) now st =
    match (checkIn (VString id) now st).1 with
    | Return _ =>
        ([Log (str "Check-in realizado para pessoa " ++ id)],
         (checkIn (VString id) now st).2)
    | Throw e =>
        ([LogError; Alert ("Erro ao realizar check-in: " +:+ reason_of e)],
         (checkIn (VString id) now st).2)
    end.
Proof.
  unfold click, callAsync, call. cbn [String.eqb Ascii.eqb Bool.eqb].
  by destruct (checkIn (VString id) now st) as [[r|e] st'].
Qed.

Lemma click_checkOut id now st :
  click (handleCheckOut id) now st =
    match (checkOut (VString id) now st).1 with
    | Return _ =>
        ([Log (str "Check-out realizado para pessoa " ++ id)],
         (checkOut (VString id) now st).2)
    | Throw e =>
        ([LogError; Alert ("Erro ao realizar check-out: " +:+ reason_of e)],
         (checkOut (VString id) now st).2)
    end.
Proof.
  unfold click, callAsync, call. cbn [String.eqb Ascii.eqb Bool.eqb].
  by destruct (checkOut (VString id) now st) as [[r|e] st'].
Qed.

(** X16. A click on an up-to-date list goes through.  When the person
    shown is the document the store holds, under a valid [_id], the
    method called by the button's click handler returns whenever it is
    run: the handler logs the success and shows no alert, the document
    gets the date of the click (check-in: [checkInDate] set and
    [checkOutDate] null; check-out: [checkOutDate] set), and the button
    drawn for the document right after has no click handler (the waiting
    button, or no button at all). *)
Theorem click_on_current_person_succeeds st p now now' h :
  st !! _id p = Some p → valid_id (_id p) →
  onClick_of (renderActionButton p now) = Some h →
  ∃ message p',
    click h now' st = ([Log message], <[_id p := p']> st) ∧
    same_identity p p' ∧
    match h with
    | handleCheckIn _ => checkInDate p' = Some now' ∧ checkOutDate p' = None
    | handleCheckOut _ =>
        checkInDate p' = checkInDate p ∧ checkOutDate p' = Some now'
    end ∧
    onClick_of (renderActionButton p' now') = None.
Proof.
  intros Hp Hv Hh.
  destruct (renderActionButton_cases p now)
    as [[Hin Hr]|[(cin & Hin & Hout & Hlt & Hr)|
        [(cin & Hin & Hout & Hge & Hr)|[_ Hr]]]];
    rewrite Hr in Hh; simpl in Hh; try discriminate; injection Hh as <-.
  - rewrite click_checkIn, (checkIn_present _ p) by done.
    simpl. eexists _, (apply_set (checkIn_set now') p).
    split_and!; [done|apply same_identity_apply_set|done|done|].
    destruct (renderActionButton_cases (apply_set (checkIn_set now') p) now')
      as [[Hin' _]|[(c & _ & _ & _ & ->)|
          [(c & Hin' & _ & Hge & _)|[[_ [c Ho]] _]]]];
      simpl in *; try done; try discriminate.
    injection Hin' as <-. lia.
  - assert (present p) as Hpres by (split; [rewrite Hin; eauto|done]).
    rewrite click_checkOut, (checkOut_present _ p) by done. simpl.
    eexists _, (apply_set (checkOut_set now') p).
    split_and!; [done|apply same_identity_apply_set|done|done|].
    destruct (renderActionButton_cases (apply_set (checkOut_set now') p) now')
      as [[Hin' _]|[(c & _ & Ho & _)|[(c & _ & Ho & _)|[_ ->]]]];
      simpl in *; try done; congruence.
Qed.

Lemma click_on_current_person_succeeds_witness :
  ana_present !! _id (with_dates ana (Some 1000) None) =
    Some (with_dates ana (Some 1000) None) ∧
  onClick_of (renderActionButton (with_dates ana (Some 1000) None) 7000) =
    Some (handleCheckOut (str "P1")) ∧
  ∃ message p',
    click (handleCheckOut (str "P1")) 7500 ana_present =
      ([Log message], <[str "P1" := p']> ana_present) ∧
    checkOutDate p' = Some 7500.
Proof.
  assert (ana_present !! _id (with_dates ana (Some 1000) None) =
            Some (with_dates ana (Some 1000) None)) as Hp by reflexivity.
  assert (onClick_of (renderActionButton (with_dates ana (Some 1000) None) 7000) =
            Some (handleCheckOut (str "P1"))) as Hh by reflexivity.
  split_and!; [exact Hp|exact Hh|].
  destruct (click_on_current_person_succeeds ana_present
              (with_dates ana (Some 1000) None) 7000 7500 _ Hp eq_refl Hh)
    as (message & p' & Hc & _ & [_ Ho] & _).
  exists message, p'. split; [exact Hc|exact Ho].
Defined.

(** X17. A click on an out-of-date list.  When the list still shows a
    person as present but the store holds the person as departed, the
    check-out button's click changes nothing and ends in the alert
    'Erro ao realizar check-out: Esta pessoa já fez check-out.'.  When
    the list still shows a person as not arrived but the store holds the
    person as departed, the check-in button's click goes through all the
    same: it starts a new stay, with [checkInDate] the date of the click
    and [checkOutDate] null again. *)
Theorem click_on_stale_person st id q now :
  valid_id id → st !! id = Some q → departed q →
  click (handleCheckOut id) now st =
    ([LogError;
      Alert "Erro ao realizar check-out: Esta pessoa já fez check-out."], st) ∧
  click (handleCheckIn id) now st =
    ([Log (str "Check-in realizado para pessoa " ++ id)],
     <[id := apply_set (checkIn_set now) q]> st).
Proof.
  intros Hv Hq [[cin Hin] [cout Hout]]. split.
  - rewrite click_checkOut. unfold checkOut.
    rewrite checkOut_find_valid by done. unfold findOneAsync. rewrite Hq.
    unfold checkOut_update. by rewrite Hin, Hout.
  - by rewrite click_checkIn, (checkIn_present _ q).
Qed.

Lemma click_on_stale_person_witness :
  valid_id (str "P1") ∧
  click (handleCheckOut (str "P1")) 9000 ana_departed =
    ([LogError;
      Alert "Erro ao realizar check-out: Esta pessoa já fez check-out."],
     ana_departed).
Proof.
  assert (valid_id (str "P1")) as Hv by reflexivity.
  split; [exact Hv|].
  exact (proj1 (click_on_stale_person ana_departed (str "P1")
                  (with_dates ana (Some 1000) (Some 2000)) 9000 Hv eq_refl
                  (conj (ex_intro _ 1000 eq_refl) (ex_intro _ 2000 eq_refl)))).
Defined.

End ClickFacts.

(** ** The figures of the summary *)

Section SummaryFacts.

Import EventSummary Sample.
Implicit Types (p : person) (l people : list person) (c : jsstring).
Implicit Types (counts : gmap jsstring nat).

Lemma total_insert_new counts c n :
  counts !! c = None → total (<[c := n]> counts) = (n + total counts)%nat.
Proof.
  intros Hc. unfold total. rewrite map_fold_insert_L; [done| |done].
  intros. lia.
Qed.

Lemma total_insert_old counts c n n' :
  counts !! c = Some n →
  (total (<[c := n']> counts) + n = n' + total counts)%nat.
Proof.
  intros Hc.
  rewrite <- (insert_delete_eq counts c n').
  rewrite total_insert_new by apply lookup_delete_eq.
  unfold total at 2. rewrite (map_fold_delete_L _ _ c n counts); [|intros; lia|done].
  fold (total (delete c counts)). lia.
Qed.

Lemma with_company_snoc c l p :
  with_company c (l ++ [p]) =
    (with_company c l + if bool_decide (company p = c) then 1 else 0)%nat.
Proof.
  unfold with_company. rewrite List.filter_app, length_app. simpl.
  by destruct (bool_decide (company p = c)).
Qed.

(** The table after the people of [l0] is right for [l0]. *)
Lemma foldl_tally l : ∀ counts l0,
  (∀ c, default 0%nat (counts !! c) = with_company c l0) →
  total counts = length l0 →
  (∀ p, In p l → company p ∉ inherited) →
  ∃ counts', foldl tally (Some counts) l = Some counts' ∧
    (∀ c, default 0%nat (counts' !! c) = with_company c (l0 ++ l)) ∧
    total counts' = length (l0 ++ l).
Proof.
  induction l as [|p l IH]; intros counts l0 Hc Ht Hin.
  { exists counts. by rewrite app_nil_r. }
  assert (company p ∉ inherited) as Hp by (apply Hin; by left).
  assert (∀ q, In q l → company q ∉ inherited) as Hin'
    by (intros q Hq; apply Hin; by right).
  replace (l0 ++ p :: l) with ((l0 ++ [p]) ++ l) by (by rewrite <- app_assoc).
  simpl. destruct (counts !! company p) as [n|] eqn:Hn.
  - apply IH; [|rewrite length_app; simpl|done].
    + intros c. rewrite with_company_snoc, lookup_insert, <- Hc.
      case_decide as Heq; [subst c|].
      * rewrite Hn, bool_decide_eq_true_2 by done. done.
      * rewrite bool_decide_eq_false_2 by done. simpl. lia.
    + pose proof (total_insert_old counts (company p) n (n + 1) Hn). lia.
  - rewrite bool_decide_eq_false_2 by done.
    apply IH; [|rewrite length_app; simpl|done].
    + intros c. rewrite with_company_snoc, lookup_insert, <- Hc.
      case_decide as Heq; [subst c|].
      * rewrite Hn, bool_decide_eq_true_2 by done. done.
      * rewrite bool_decide_eq_false_2 by done. simpl. lia.
    + rewrite total_insert_new by done. lia.
Qed.

Lemma foldl_tally_None l : foldl tally None l = None.
Proof. induction l as [|p l IH]; [done|]. exact IH. Qed.

(** Every round of the [reduce] adds 1: no count is 0. *)
Lemma foldl_tally_positive l : ∀ counts counts' c,
  (∀ c', counts !! c' ≠ Some 0%nat) →
  foldl tally (Some counts) l = Some counts' → counts' !! c ≠ Some 0%nat.
Proof.
  induction l as [|p l IH]; intros counts counts' c Hm; simpl.
  - intros [= <-]. apply Hm.
  - destruct (counts !! company p) as [n|] eqn:Hn.
    + apply IH. intros c'. rewrite lookup_insert. case_decide; [|apply Hm].
      intros [= ?]. lia.
    + destruct (bool_decide _).
      * by rewrite foldl_tally_None.
      * apply IH. intros c'. rewrite lookup_insert.
        case_decide; [done|apply Hm].
Qed.

(** X18. The three kinds of people of the summary.  Everyone on the
    list is counted once: as present (check-in date, no check-out date),
    as not checked in (no check-in date, whatever the check-out date), or
    as neither, which are the people with both dates.  So the two figures
    shown never add up to more than the total. *)
Theorem summary_counts_partition people :
  length people =
    (currentlyPresentCount people + notCheckedInCount people +
     length (List.filter
               (λ p, bool_decide (is_Some (checkInDate p))
                     && bool_decide (is_Some (checkOutDate p))) people))%nat ∧
  (currentlyPresentCount people + notCheckedInCount people ≤ length people)%nat.
Proof.
  assert (length people =
    (currentlyPresentCount people + notCheckedInCount people +
     length (List.filter
               (λ p, bool_decide (is_Some (checkInDate p))
                     && bool_decide (is_Some (checkOutDate p))) people))%nat) as H.
  { unfold currentlyPresentCount, notCheckedInCount, peopleCurrentlyPresent,
      peopleNotCheckedIn, is_present.
    induction people as [|p people IH]; [done|]. simpl.
    destruct (checkInDate p), (checkOutDate p); simpl; lia. }
  split; [exact H|lia].
Qed.

(** X19. The counts by company.  When no present person's company name
    is a property name inherited from [Object.prototype], the table built
    by the [reduce] holds, for every company, the number of present
    people of that company (a missing or empty company name counting as
    'Sem empresa'), holds no entry for a company without present people,
    and its counts add up to the number of people present. *)
Theorem companiesPresent_counts people :
  (∀ p, In p (peopleCurrentlyPresent people) → company p ∉ inherited) →
  ∃ counts,
    companiesPresent people = Some counts ∧
    (∀ c, default 0%nat (counts !! c) =
          with_company c (peopleCurrentlyPresent people)) ∧
    (∀ c, counts !! c ≠ Some 0%nat) ∧
    total counts = currentlyPresentCount people ∧
    (∀ p, In p people → present p →
          (companyName p = None ∨ companyName p = Some []) →
          (1 ≤ default 0%nat (counts !! str "Sem empresa"))%nat).
Proof.
  intros Hin. unfold companiesPresent.
  destruct (foldl_tally (peopleCurrentlyPresent people) ∅ []) as (counts & Hf & Hc & Ht);
    [done|done|done|]. simpl in Hc, Ht.
  exists counts. split_and!; [done|done| |done|].
  - intros c.
    apply (foldl_tally_positive (peopleCurrentlyPresent people) ∅ counts c);
      [|done].
    intros c'. by rewrite lookup_empty.
  - intros p Hp [Hpin Hpout] Hcomp. rewrite Hc.
    assert (company p = str "Sem empresa") as Hcp.
    { unfold company. by destruct Hcomp as [-> | ->]. }
    assert (In p (peopleCurrentlyPresent people)) as Hpp.
    { apply List.filter_In. split; [done|]. unfold is_present.
      rewrite (bool_decide_eq_true_2 _ Hpin), Hpout. done. }
    clear -Hcp Hpp. unfold with_company.
    induction (peopleCurrentlyPresent people) as [|q l IH]; [done|].
    simpl. destruct Hpp as [-> | Hpp].
    + rewrite bool_decide_eq_true_2 by done. simpl. lia.
    + specialize (IH Hpp). destruct (bool_decide _); simpl; lia.
Qed.

Lemma companiesPresent_counts_witness :
  (∀ p, In p (peopleCurrentlyPresent guests) → company p ∉ inherited) ∧
  ∃ counts,
    companiesPresent guests = Some counts ∧
    default 0%nat (counts !! str "Acme") = 1%nat ∧
    default 0%nat (counts !! str "Sem empresa") = 1%nat ∧
    total counts = 2%nat.
Proof.
  assert (∀ p, In p (peopleCurrentlyPresent guests) → company p ∉ inherited)
    as Hin.
  { intros p Hp. simpl in Hp.
    destruct Hp as [<-|[<-|[]]]; intros Hc;
      apply (bool_decide_eq_true_2 _) in Hc; discriminate Hc. }
  split; [exact Hin|].
  destruct (companiesPresent_counts guests Hin) as (counts & Hf & Hc & _ & Ht & _).
  exists counts. split_and!; [exact Hf| | |exact Ht].
  - rewrite Hc. reflexivity.
  - rewrite Hc. reflexivity.
Defined.

End SummaryFacts.

(** ** The dates as they are shown *)

Section DateFacts.

Import DateFormat Sample.
Implicit Types (d : local_date) (n : Z).

Lemma str_inj (a b : string) : str a = str b → a = b.
Proof.
  unfold str. revert b. induction a as [|x a IH]; intros [|y b]; simpl;
    try done.
  intros [= Hxy Hab]. f_equal; [|by apply IH].
  apply (f_equal ascii_of_N) in Hxy. by rewrite !ascii_N_embedding in Hxy.
Qed.

Lemma toString_inj n m : toString n = toString m → n = m.
Proof. intros H. apply str_inj in H. by apply (inj pretty). Qed.

Lemma padStart2_table :
  forallb (λ k, bool_decide (padStart2 (toString (Z.of_nat k)) =
                             two_digits (Z.of_nat k))) (seq 0 100) = true.
Proof. by vm_compute. Qed.

Lemma padStart2_two_digits n :
  0 ≤ n < 100 → padStart2 (toString n) = two_digits n.
Proof.
  intros Hn. pose proof padStart2_table as H.
  rewrite forallb_forall in H.
  specialize (H (Z.to_nat n)). rewrite Z2Nat.id in H by lia.
  assert (In (Z.to_nat n) (seq 0 100)) as Hin by (apply in_seq; lia).
  specialize (H Hin). by apply bool_decide_eq_true in H.
Qed.

Lemma two_digits_inj n m :
  0 ≤ n < 100 → 0 ≤ m < 100 → two_digits n = two_digits m → n = m.
Proof.
  intros Hn Hm. unfold two_digits. intros [= H1 H2].
  pose proof (Z.div_mod n 10 ltac:(lia)).
  pose proof (Z.div_mod m 10 ltac:(lia)).
  pose proof (Z.mod_pos_bound n 10 ltac:(lia)).
  pose proof (Z.mod_pos_bound m 10 ltac:(lia)).
  assert (0 ≤ n / 10) by (apply Z.div_pos; lia).
  assert (0 ≤ m / 10) by (apply Z.div_pos; lia).
  lia.
Qed.

Lemma formatDate_in_range d :
  in_range d →
  formatDate (Some d) =
    two_digits (getMonth d + 1) ++ str "/" ++ two_digits (getDate d)
      ++ str "/" ++ toString (getFullYear d) ++ str ", "
      ++ two_digits (getHours d) ++ str ":" ++ two_digits (getMinutes d).
Proof.
  intros (Hm & Hd & Hh & Hn). unfold formatDate.
  by rewrite !padStart2_two_digits by lia.
Qed.

(** X20. The date text.  [formatDate] gives 'N/A' for a null date; for a
    date whose fields are in their ranges it gives the month counted from
    1 in two digits, '/', the day in two digits, '/', the year, ', ', the
    hours in two digits, ':' and the minutes in two digits.  That text is
    never 'N/A', and two dates give the same text only if they agree on
    month, day, year, hours and minutes. *)
Theorem formatDate_text d d' :
  formatDate None = str "N/A" ∧
  (in_range d →
     formatDate (Some d) =
       two_digits (getMonth d + 1) ++ str "/" ++ two_digits (getDate d)
         ++ str "/" ++ toString (getFullYear d) ++ str ", "
         ++ two_digits (getHours d) ++ str ":" ++ two_digits (getMinutes d)) ∧
  (in_range d → formatDate (Some d) ≠ formatDate None) ∧
  (in_range d → in_range d' →
     formatDate (Some d) = formatDate (Some d') → d = d').
Proof.
  split_and!; [done|apply formatDate_in_range| |].
  - intros Hr. rewrite formatDate_in_range by done.
    simpl. intros H. discriminate H.
  - intros Hr Hr'. rewrite !formatDate_in_range by done.
    destruct Hr as (Hm & Hd & Hh & Hn). destruct Hr' as (Hm' & Hd' & Hh' & Hn').
    intros H.
    change (two_digits (getMonth d + 1) ++ str "/" ++ two_digits (getDate d)
              ++ str "/" ++ toString (getFullYear d) ++ str ", "
              ++ two_digits (getHours d) ++ str ":" ++ two_digits (getMinutes d))
      with ((two_digits (getMonth d + 1) ++ str "/" ++ two_digits (getDate d)
              ++ str "/") ++ toString (getFullYear d) ++
            (str ", " ++ two_digits (getHours d) ++ str ":"
               ++ two_digits (getMinutes d))) in H.
    change (two_digits (getMonth d' + 1) ++ str "/" ++ two_digits (getDate d')
              ++ str "/" ++ toString (getFullYear d') ++ str ", "
              ++ two_digits (getHours d') ++ str ":" ++ two_digits (getMinutes d'))
      with ((two_digits (getMonth d' + 1) ++ str "/" ++ two_digits (getDate d')
              ++ str "/") ++ toString (getFullYear d') ++
            (str ", " ++ two_digits (getHours d') ++ str ":"
               ++ two_digits (getMinutes d'))) in H.
    apply app_inj_1 in H as [H1 H2]; [|done].
    apply app_inj_2 in H2 as [Hy H3]; [|done].
    apply toString_inj in Hy.
    injection H1 as Ha Hb Hc Hd0. injection H3 as He Hf Hg Hi.
    assert (getMonth d + 1 = getMonth d' + 1) as Hmonth
      by (apply two_digits_inj; [lia|lia|unfold two_digits; congruence]).
    assert (getDate d = getDate d') as Hday
      by (apply two_digits_inj; [lia|lia|unfold two_digits; congruence]).
    assert (getHours d = getHours d') as Hhours
      by (apply two_digits_inj; [lia|lia|unfold two_digits; congruence]).
    assert (getMinutes d = getMinutes d') as Hmin
      by (apply two_digits_inj; [lia|lia|unfold two_digits; congruence]).
    clear -Hy Hmonth Hday Hhours Hmin. destruct d, d'.
    cbn [getMonth getDate getFullYear getHours getMinutes] in *.
    f_equal; lia.
Qed.

Lemma formatDate_text_witness :
  in_range march_5 ∧ formatDate (Some march_5) = str "03/05/2024, 09:07".
Proof.
  assert (in_range march_5) as Hr by (unfold in_range; simpl; lia).
  split; [exact Hr|].
  rewrite (proj1 (proj2 (formatDate_text march_5 march_5)) Hr). reflexivity.
Defined.

End DateFacts.

(** ** The selector on the home page *)

Section SelectorFacts.

Import EventSelector HomePage Publications.

Lemma on_change_keeps selectedCommunityId selectedValue :
  on_change selectedCommunityId selectedValue = selectedCommunityId.
Proof. done. Qed.

(** X21. The selector as the home page wires it.  [EventSelector] calls
    the prop [onSelectCommunity]; [HomePage] hands it the setter under the
    name [setSelectedCommunityId].  So every change of the select throws
    ('onSelectCommunity is not a function'), the selection of the page
    stays [null] after any sequence of changes, and the page's
    subscription to [people] stays ready and empty whatever the store
    holds.  Handed a callback under the name it calls, the handler passes
    it [null] for the empty value and the chosen identifier otherwise. *)
Theorem homepage_selection_stays_null selections selectedValue state st f :
  handleSelectChange (selector_props state) selectedValue =
    Throw (JsError "onSelectCommunity is not a function") ∧
  after_changes selections = VNull ∧
  people_subscription people_arrow (after_changes selections) st =
    {| ready := true; documents := ∅; scans := 0; error := None |} ∧
  handleSelectChange [("onSelectCommunity", PCallback f)] selectedValue =
    Return (f (match selectedValue with
               | [] => VNull
               | _ => VString selectedValue
               end)).
Proof.
  assert (after_changes selections = VNull) as Hnull.
  { unfold after_changes. induction selections as [|v l IH]; [done|].
    simpl. by rewrite on_change_keeps. }
  split_and!; [done|exact Hnull| |done].
  rewrite Hnull. unfold people_subscription.
  by destruct (subscribe_invalid VNull st) as [_ ->].
Qed.

End SelectorFacts.
